(** * MatchingEnums: the enum-consistency rule of schema composition

    A shallow embedding of
    [federation-js/src/composition/validate/sdl/matchingEnums.ts]
    and the properties its specification states about it.

    Conventions of the embedding.
    - A JavaScript object used as a dictionary is the list of its own
      properties in insertion order ([JsObject]), created by the literal
      [{}]: a bracket lookup that finds no own property goes on to
      [Object.prototype] and finds its members there.  The keys of the
      rule are GraphQL names and comma-joined lists of GraphQL names;
      such keys are never array indices, so [Object.keys],
      [Object.values] and [Object.entries] enumerate them in insertion
      order.
    - A call either returns or throws a [TypeError] ([Completion]); what a
      throwing call has reported to the context before stays reported
      ([Outcome]).
    - [undefined] / [null] fields are [None].
    - Strings are byte strings; on GraphQL names (ASCII) the byte order is
      the UTF-16 code-unit order that [Array.prototype.sort] uses.
    - [context.reportError] appends to the error list of the context. *)

From stdpp Require Import base list strings sorting.

(** ** JavaScript objects used as dictionaries *)

Module JsObject.

Abbreviation t V := (list (string * V)).

(** The property names of [Object.prototype].  Each of them holds a
    function, but for [__proto__], an accessor that yields
    [Object.prototype] itself: all are truthy, and none has a [push]. *)
Definition prototypeMembers : list string :=
  ["constructor"; "__defineGetter__"; "__defineSetter__"; "hasOwnProperty";
   "__lookupGetter__"; "__lookupSetter__"; "isPrototypeOf";
   "propertyIsEnumerable"; "toString"; "valueOf"; "__proto__";
   "toLocaleString"].

(** What [o[k]] finds. *)
Inductive Lookup (V : Type) :=
| Own (v : V)
| Inherited
| Undefined.

Arguments Own {V} v.
Arguments Inherited {V}.
Arguments Undefined {V}.

Section ops.
Context {V : Type}.

Fixpoint getOwn (o : t V) (k : string) : option V :=
  match o with
  | [] => None
  | (k', v) :: o' => if decide (k' = k) then Some v else getOwn o' k
  end.

(** [o[k]]: the own property [k], else the member [k] of
    [Object.prototype], else [undefined]. *)
Definition get (o : t V) (k : string) : Lookup V :=
  match getOwn o k with
  | Some v => Own v
  | None => if decide (k ∈ prototypeMembers) then Inherited else Undefined
  end.

(** [o[k] = v]: an existing property keeps its place, a new one goes
    last. *)
Fixpoint set (o : t V) (k : string) (v : V) : t V :=
  match o with
  | [] => [(k, v)]
  | (k', v') :: o' =>
      if decide (k' = k) then (k', v) :: o' else (k', v') :: set o' k v
  end.

Definition keys (o : t V) : list string := o.*1.
Definition values (o : t V) : list V := o.*2.
Definition entries (o : t V) : list (string * V) := o.
End ops.

End JsObject.

(** ** How a call ends *)

Inductive Completion (A : Type) :=
| Normal (a : A)
| TypeError.

Arguments Normal {A} a.
Arguments TypeError {A}.

(** A loop over an array whose body may throw: [reduce] with a callback,
    or [for ... of] over a fresh accumulator. *)
Fixpoint reduce {A B} (f : A → B → Completion A) (l : list B) (a : A)
    : Completion A :=
  match l with
  | [] => Normal a
  | x :: l =>
      match f a x with
      | Normal a' => reduce f l a'
      | TypeError => TypeError
      end
  end.

(** ** The AST nodes the rule reads *)

(** [Kind] of a [TypeDefinitionNode]. *)
Inductive Kind :=
| SCALAR_TYPE_DEFINITION
| OBJECT_TYPE_DEFINITION
| INTERFACE_TYPE_DEFINITION
| UNION_TYPE_DEFINITION
| ENUM_TYPE_DEFINITION
| INPUT_OBJECT_TYPE_DEFINITION.

Global Instance Kind_eq_dec : EqDecision Kind.
Proof. solve_decision. Defined.

Record NameNode := { value : string }.

Record EnumValueDefinitionNode := { ev_name : NameNode }.

(** A type definition of one service.  [serviceName] is optional on the
    node type; [values] exists on enum definitions only and is optional
    there. *)
Record TypeDefinitionNode := {
  kind : Kind;
  name : NameNode;
  serviceName : option string;
  values : option (list EnumValueDefinitionNode);
}.

Definition isEnumDefinition (node : TypeDefinitionNode) : bool :=
  bool_decide (kind node = ENUM_TYPE_DEFINITION).

Abbreviation TypeToDefinitionsMap := (JsObject.t (list TypeDefinitionNode)).

(** ** Errors and the validation context *)

Inductive ErrorCode := ENUM_MISMATCH | ENUM_MISMATCH_TYPE.

Global Instance ErrorCode_eq_dec : EqDecision ErrorCode.
Proof. solve_decision. Defined.

(** Services mapped to what is impacted in them.  The rule only ever
    builds the empty object, so the payload type plays no role. *)
Abbreviation ImpactedServicesCompositionError :=
  (JsObject.t (list EnumValueDefinitionNode)).

Record CompositionError := {
  code : ErrorCode;
  impactedServices : ImpactedServicesCompositionError;
  message : string;
}.

(** Modelled from the spec: [errorWithCode] of [../../utils] is not part of
    the sources at hand.  The specification describes the emitted fault as a
    record of a code, an [impactedServices] payload and a message. *)
Definition errorWithCode (c : ErrorCode)
    (impacted : ImpactedServicesCompositionError) (msg : string)
    : CompositionError :=
  {| code := c; impactedServices := impacted; message := msg |}.

Record SDLValidationContext := {
  document : list TypeDefinitionNode;
  errors : list CompositionError;
}.

Definition getDocument (context : SDLValidationContext)
    : list TypeDefinitionNode :=
  document context.

Definition reportError (context : SDLValidationContext)
    (e : CompositionError) : SDLValidationContext :=
  {| document := document context; errors := errors context ++ [e] |}.

(** ** Array and string primitives *)

(** [Array.prototype.join] on an array of strings. *)
Definition join (sep : string) (l : list string) : string :=
  String.concat sep l.

(** [Array.prototype.sort] without a comparator, on an array of strings:
    ascending code-unit order.  The order is total and antisymmetric, so
    the sorted array does not depend on the sorting algorithm. *)
Definition sort (l : list string) : list string :=
  merge_sort String.le l.

(** [.filter(isString)] on an array of optional strings. *)
Definition filter_isString (l : list (option string)) : list string :=
  omap id l.

(** Truthiness of an optional string: present and not empty. *)
Definition truthy (s : option string) : bool :=
  match s with
  | Some s => negb (bool_decide (s = ""))
  | None => false
  end.

(** What the rule has done to the context, and how it ended. *)
Record Outcome := {
  after : SDLValidationContext;
  completion : Completion unit;
}.

(** ** The rule *)

(** Step of the [reduce] that groups all definitions by name.  The lookup
    of line 31 is truthy for an array and for an inherited member; the
    [push] of line 32 on an inherited member throws, as it has no [push]. *)
Definition groupByNameStep (typeToDefinitionsMap : TypeToDefinitionsMap)
    (node : TypeDefinitionNode) : Completion TypeToDefinitionsMap :=
  let name := value (name node) in
  match JsObject.get typeToDefinitionsMap name with
  | JsObject.Own defs =>
      Normal (JsObject.set typeToDefinitionsMap name (defs ++ [node]))
  | JsObject.Inherited => TypeError
  | JsObject.Undefined =>
      Normal (JsObject.set typeToDefinitionsMap name [node])
  end.

Definition definitionsByName (definitions : list TypeDefinitionNode)
    : Completion TypeToDefinitionsMap :=
  reduce groupByNameStep definitions [].

Record SimpleEnumDef := {
  sed_serviceName : string;
  sed_values : list string;
  sed_nodes : list EnumValueDefinitionNode;
}.

Record ServiceWithNodes := {
  swn_serviceName : string;
  swn_nodes : list EnumValueDefinitionNode;
}.

(** Building [simpleEnumDefs]: definitions without a truthy [serviceName]
    or without [values] are passed over. *)
Definition simpleEnumDef (node : TypeDefinitionNode) : option SimpleEnumDef :=
  match serviceName node, values node with
  | Some s, Some vs =>
      if truthy (Some s) then
        Some {| sed_serviceName := s;
                sed_values := map (λ enumValue, value (ev_name enumValue)) vs;
                sed_nodes := vs |}
      else None
  | _, _ => None
  end.

Definition buildSimpleEnumDefs (definitions : list TypeDefinitionNode)
    : list SimpleEnumDef :=
  omap simpleEnumDef definitions.

(** The loop that sorts the [values] of every entry. *)
Definition sortValues (definition : SimpleEnumDef) : SimpleEnumDef :=
  {| sed_serviceName := sed_serviceName definition;
     sed_values := sort (sed_values definition);
     sed_nodes := sed_nodes definition |}.

Abbreviation MatchingEnumGroups := (JsObject.t (list ServiceWithNodes)).

(** Step of the loop that builds [matchingEnumGroups] (lines 75 to 83),
    with the same lookup and [push] as the grouping by name. *)
Definition matchingEnumGroupsStep (matchingEnumGroups : MatchingEnumGroups)
    (definition : SimpleEnumDef) : Completion MatchingEnumGroups :=
  let key := join "," (sed_values definition) in
  let serviceWithNodes :=
    {| swn_serviceName := sed_serviceName definition;
       swn_nodes := sed_nodes definition |} in
  match JsObject.get matchingEnumGroups key with
  | JsObject.Own group =>
      Normal (JsObject.set matchingEnumGroups key (group ++ [serviceWithNodes]))
  | JsObject.Inherited => TypeError
  | JsObject.Undefined =>
      Normal (JsObject.set matchingEnumGroups key [serviceWithNodes])
  end.

Definition buildMatchingEnumGroups (definitions : list TypeDefinitionNode)
    : Completion MatchingEnumGroups :=
  let simpleEnumDefs := buildSimpleEnumDefs definitions in
  let simpleEnumDefs := map sortValues simpleEnumDefs in
  reduce matchingEnumGroupsStep simpleEnumDefs [].

(** String conversion of a [{serviceName, nodes}] object, as [join] applies
    it to the members of a group: a plain object has no [toString] of its
    own. *)
Definition ServiceWithNodes_toString (_ : ServiceWithNodes) : string :=
  "[object Object]".

Definition enumMismatchMessage (name : string)
    (matchingEnumGroups : MatchingEnumGroups) : string :=
  "The `" +:+ name +:+
  "` enum does not have identical values in all services. Groups of services with identical values are: " +:+
  join ", "
    (map (λ serviceNames,
            "[" +:+ join ", " (map ServiceWithNodes_toString serviceNames) +:+ "]")
         (JsObject.values matchingEnumGroups)).

Definition servicesWithEnum (definitions : list TypeDefinitionNode)
    : list string :=
  filter_isString (map serviceName (List.filter isEnumDefinition definitions)).

Definition servicesWithoutEnum (definitions : list TypeDefinitionNode)
    : list string :=
  filter_isString
    (map serviceName (List.filter (λ d, negb (isEnumDefinition d)) definitions)).

Section Rule.

(** [logServiceAndType] of [../../utils] is not part of the sources at
    hand; the rule is taken over an arbitrary such helper.  Its first
    argument is an array element and may be [undefined]. *)
Variable logServiceAndType : option string → string → string.

Definition enumMismatchTypeMessage (name : string)
    (definitions : list TypeDefinitionNode) : string :=
  let servicesWithEnum := servicesWithEnum definitions in
  let servicesWithoutEnum := servicesWithoutEnum definitions in
  logServiceAndType (servicesWithEnum !! 0%nat) name +:+
  (name +:+ " is an enum in [" +:+ join ", " servicesWithEnum +:+
   "], but not in [" +:+ join ", " servicesWithoutEnum +:+ "]").

(** Body of the loop over the groups of definitions. *)
Definition checkGroup (context : SDLValidationContext)
    (entry : string * list TypeDefinitionNode) : Outcome :=
  let '(name, definitions) := entry in
  if forallb isEnumDefinition definitions then
    match buildMatchingEnumGroups definitions with
    | TypeError => {| after := context; completion := TypeError |}
    | Normal matchingEnumGroups =>
        if bool_decide (1 < length (JsObject.keys matchingEnumGroups)) then
          let impactedServices : ImpactedServicesCompositionError := [] in
          {| after :=
               reportError context
                 (errorWithCode ENUM_MISMATCH impactedServices
                    (enumMismatchMessage name matchingEnumGroups));
             completion := Normal () |}
        else {| after := context; completion := Normal () |}
    end
  else if existsb isEnumDefinition definitions then
    let impactedServices : ImpactedServicesCompositionError := [] in
    {| after :=
         reportError context
           (errorWithCode ENUM_MISMATCH_TYPE impactedServices
              (enumMismatchTypeMessage name definitions));
       completion := Normal () |}
  else {| after := context; completion := Normal () |}.

(** The loop over the groups: a throwing body ends it. *)
Fixpoint checkGroups (context : SDLValidationContext)
    (groups : list (string * list TypeDefinitionNode)) : Outcome :=
  match groups with
  | [] => {| after := context; completion := Normal () |}
  | entry :: groups =>
      let outcome := checkGroup context entry in
      match completion outcome with
      | Normal _ => checkGroups (after outcome) groups
      | TypeError => outcome
      end
  end.

Definition MatchingEnums (context : SDLValidationContext) : Outcome :=
  let definitions := getDocument context in
  match definitionsByName definitions with
  | TypeError => {| after := context; completion := TypeError |}
  | Normal definitionsByName =>
      checkGroups context (JsObject.entries definitionsByName)
  end.

End Rule.

(** ** Reference definitions

    What the statements below compare the rule against. *)

(** The distinct elements of a list, in the order of their first
    occurrence. *)
Fixpoint firstSeen (ks : list string) : list string :=
  match ks with
  | [] => []
  | k :: ks => k :: filter (λ k', k' ≠ k) (firstSeen ks)
  end.

(** A key that a lookup in an empty object finds on [Object.prototype]. *)
Definition inherited (k : string) : bool :=
  bool_decide (k ∈ JsObject.prototypeMembers).

Section grouping.
Context {A V : Type} (key : A → string) (val : A → V).

(** The push-or-create step that both grouping loops of the rule perform. *)
Definition pushStep (o : JsObject.t (list V)) (a : A)
    : Completion (JsObject.t (list V)) :=
  match JsObject.get o (key a) with
  | JsObject.Own g => Normal (JsObject.set o (key a) (g ++ [val a]))
  | JsObject.Inherited => TypeError
  | JsObject.Undefined => Normal (JsObject.set o (key a) [val a])
  end.

(** The elements of [l] filed under [k], in the order of [l]. *)
Definition members (k : string) (l : list A) : list V :=
  val <$> filter (λ a, key a = k) l.

(** Grouping as a table: one entry per distinct key, in first-seen order. *)
Definition grouped (l : list A) : JsObject.t (list V) :=
  (λ k, (k, members k l)) <$> firstSeen (key <$> l).
End grouping.

Definition typeName (d : TypeDefinitionNode) : string := value (name d).

Definition enumValueNames (vs : list EnumValueDefinitionNode) : list string :=
  (λ enumValue, value (ev_name enumValue)) <$> vs.

(** The key under which an enum with the values [vs] is filed. *)
Definition signature (vs : list EnumValueDefinitionNode) : string :=
  join "," (sort (enumValueNames vs)).

Definition signatureOf (d : TypeDefinitionNode) : string :=
  signature (default [] (values d)).

(** A definition takes part in the comparison of value sets when it has a
    service name (an empty name counts as none, as in the truthiness test
    of the source) and a list of values. *)
Definition comparable (d : TypeDefinitionNode) : bool :=
  truthy (serviceName d) && bool_decide (is_Some (values d)).

(** Service names of the definitions satisfying [P], in order, passing over
    the definitions that have none. *)
Fixpoint servicesWhere (P : TypeDefinitionNode → bool)
    (defs : list TypeDefinitionNode) : list string :=
  match defs with
  | [] => []
  | d :: defs =>
      if P d then
        match serviceName d with
        | Some s => s :: servicesWhere P defs
        | None => servicesWhere P defs
        end
      else servicesWhere P defs
  end.

(** What the loop over [simpleEnumDefs] files under a key. *)
Definition serviceWithNodes (definition : SimpleEnumDef) : ServiceWithNodes :=
  {| swn_serviceName := sed_serviceName definition;
     swn_nodes := sed_nodes definition |}.

Definition matchingKey (definition : SimpleEnumDef) : string :=
  join "," (sed_values definition).

(** Number of distinct signatures among the comparable definitions. *)
Definition signatureCount (defs : list TypeDefinitionNode) : nat :=
  length (remove_dups (signatureOf <$> filter (λ d, comparable d) defs)).

(** The services listed in the groups of a [matchingEnumGroups] object. *)
Definition groupServices (groups : MatchingEnumGroups) : list string :=
  swn_serviceName <$> concat (JsObject.values groups).

(** The signature groups of a group of definitions, as a table. *)
Definition signatureGroups (defs : list TypeDefinitionNode)
    : MatchingEnumGroups :=
  grouped matchingKey serviceWithNodes
    (sortValues <$> buildSimpleEnumDefs defs).

(** A definition whose signature is filed under an inherited key: it has a
    service name and a single value named like a member of
    [Object.prototype]. *)
Definition signatureInherited (d : TypeDefinitionNode) : bool :=
  comparable d && inherited (signatureOf d).

(** The groups on which the loop body throws. *)
Definition groupThrows (defs : list TypeDefinitionNode) : bool :=
  forallb isEnumDefinition defs && existsb signatureInherited defs.

(** The groups the loop gets through: those before the first on which its
    body throws. *)
Fixpoint scanned (groups : list (string * list TypeDefinitionNode))
    : list (string * list TypeDefinitionNode) :=
  match groups with
  | [] => []
  | entry :: groups =>
      if groupThrows entry.2 then [] else entry :: scanned groups
  end.

(** The groups a run gets through: none when the grouping by name throws. *)
Definition scannedGroups (defs : list TypeDefinitionNode)
    : list (string * list TypeDefinitionNode) :=
  if existsb (λ d, inherited (typeName d)) defs then []
  else scanned (grouped typeName id defs).

(** The documents on which a run throws: a type name is inherited, or the
    loop body throws on a group. *)
Definition runThrows (defs : list TypeDefinitionNode) : bool :=
  existsb (λ d, inherited (typeName d)) defs
  || existsb (λ entry, groupThrows entry.2) (grouped typeName id defs).

(** The errors the loop body reports for one group. *)
Definition groupFaults (logServiceAndType : option string → string → string)
    (entry : string * list TypeDefinitionNode) : list CompositionError :=
  errors (after (checkGroup logServiceAndType
                   {| document := []; errors := [] |} entry)).

(** A group that the rule must flag: all enums with at least two distinct
    signatures, or enums mixed with other kinds. *)
Definition inconsistent (defs : list TypeDefinitionNode) : Prop :=
  (forallb isEnumDefinition defs = true ∧ 2 ≤ signatureCount defs)
  ∨ (existsb isEnumDefinition defs = true ∧
     forallb isEnumDefinition defs = false).

Global Instance inconsistent_dec defs : Decision (inconsistent defs).
Proof. unfold inconsistent. apply _. Defined.

(** A rendering of the prefix helper, to run the rule on concrete inputs. *)
Definition sampleLogServiceAndType (serviceName : option string)
    (typeName : string) : string :=
  "[" +:+ default "undefined" serviceName +:+ "] " +:+ typeName +:+ " -> ".

(** Concrete definitions for the examples. *)
Definition enumValue (s : string) : EnumValueDefinitionNode :=
  {| ev_name := {| value := s |} |}.

Definition enumDef (n : string) (s : option string) (vs : list string)
    : TypeDefinitionNode :=
  {| kind := ENUM_TYPE_DEFINITION; name := {| value := n |};
     serviceName := s; values := Some (enumValue <$> vs) |}.

Definition objectDef (n : string) (s : option string) : TypeDefinitionNode :=
  {| kind := OBJECT_TYPE_DEFINITION; name := {| value := n |};
     serviceName := s; values := None |}.

Definition freshContext (defs : list TypeDefinitionNode)
    : SDLValidationContext :=
  {| document := defs; errors := [] |}.

(** The character [,], which [join] puts between the value names. *)
Definition comma : Ascii.ascii := Ascii.ascii_of_nat 44.

Fixpoint hasComma (s : string) : bool :=
  match s with
  | EmptyString => false
  | String c s => if Ascii.eqb c comma then true else hasComma s
  end.

(** What the grammar of GraphQL names gives and the signature relies on:
    a name is not empty and holds no comma. *)
Definition validName (s : string) : Prop := s ≠ "" ∧ hasComma s = false.

(** The comparable definitions with a given signature. *)
Definition hasSignature (sig : string) (d : TypeDefinitionNode) : bool :=
  comparable d && bool_decide (signatureOf d = sig).

(** ** Insertion-ordered objects and grouping *)

Lemma elem_of_firstSeen ks k : k ∈ firstSeen ks ↔ k ∈ ks.
Proof.
  induction ks as [|x ks IH]; simpl; [done|].
  rewrite !elem_of_cons, list_elem_of_filter, IH.
  destruct (decide (k = x)); tauto.
Qed.

Lemma NoDup_firstSeen ks : NoDup (firstSeen ks).
Proof.
  induction ks as [|x ks IH]; simpl; [constructor|].
  constructor; [|by apply NoDup_filter].
  rewrite list_elem_of_filter. tauto.
Qed.

Lemma firstSeen_snoc ks k :
  firstSeen (ks ++ [k]) =
  if decide (k ∈ ks) then firstSeen ks else firstSeen ks ++ [k].
Proof.
  induction ks as [|x ks IH]; simpl; [done|].
  rewrite IH. destruct (decide (k ∈ ks)) as [Hin|Hin].
  - rewrite decide_True by (by right). done.
  - destruct (decide (k = x)) as [->|Hne].
    + rewrite decide_True by (by left).
      rewrite filter_app, filter_cons, filter_nil.
      rewrite decide_False by tauto. by rewrite app_nil_r.
    + rewrite decide_False by (rewrite elem_of_cons; tauto).
      rewrite filter_app, filter_cons, filter_nil.
      by rewrite decide_True by done.
Qed.

(** Two or more distinct elements, counted either way. *)
Lemma firstSeen_remove_dups ks : firstSeen ks ≡ₚ remove_dups ks.
Proof.
  apply NoDup_Permutation.
  - apply NoDup_firstSeen.
  - apply NoDup_remove_dups.
  - intros k. by rewrite elem_of_firstSeen, elem_of_remove_dups.
Qed.

Section obj_lemmas.
Context {V : Type}.
Implicit Types (o : JsObject.t V) (f : string → V).

Lemma getOwn_tabulate f ks k :
  JsObject.getOwn ((λ k, (k, f k)) <$> ks) k =
  if decide (k ∈ ks) then Some (f k) else None.
Proof.
  induction ks as [|x ks IH]; [done|].
  rewrite fmap_cons. cbn [JsObject.getOwn].
  destruct (decide (x = k)) as [->|Hne].
  - by rewrite decide_True by (by left).
  - rewrite IH. destruct (decide (k ∈ ks)).
    + by rewrite decide_True by (by right).
    + by rewrite decide_False
        by (rewrite elem_of_cons; intros [?|?]; congruence).
Qed.

(** Looking a key up in a table: an own property, an inherited member or
    nothing. *)
Lemma get_tabulate f ks k :
  JsObject.get ((λ k, (k, f k)) <$> ks) k =
  if decide (k ∈ ks) then JsObject.Own (f k)
  else if inherited k then JsObject.Inherited else JsObject.Undefined.
Proof.
  unfold JsObject.get, inherited. rewrite getOwn_tabulate.
  destruct (decide (k ∈ ks)); [done|].
  by destruct (decide (k ∈ JsObject.prototypeMembers)) as [Hk|Hk];
    [rewrite bool_decide_eq_true_2|rewrite bool_decide_eq_false_2].
Qed.

Lemma set_tabulate_in f ks k v :
  NoDup ks → k ∈ ks →
  JsObject.set ((λ k, (k, f k)) <$> ks) k v =
  (λ k', (k', if decide (k' = k) then v else f k')) <$> ks.
Proof.
  induction ks as [|x ks IH]; [by intros _ ?%elem_of_nil|].
  rewrite !fmap_cons. cbn [JsObject.set].
  intros [Hx Hnd]%NoDup_cons Hin.
  destruct (decide (x = k)) as [->|Hne].
  - f_equal. apply list_fmap_ext. intros i y Hy%list_elem_of_lookup_2.
    rewrite decide_False by (intros ->; done). done.
  - f_equal. apply IH; [done|].
    apply elem_of_cons in Hin as [?|?]; [congruence|done].
Qed.

Lemma set_tabulate_notin f ks k v :
  k ∉ ks →
  JsObject.set ((λ k, (k, f k)) <$> ks) k v =
  ((λ k, (k, f k)) <$> ks) ++ [(k, v)].
Proof.
  induction ks as [|x ks IH]; [done|].
  rewrite fmap_cons. cbn [JsObject.set app].
  intros Hin. rewrite decide_False by (intros ->; apply Hin; by left).
  f_equal. apply IH. intros ?. apply Hin. by right.
Qed.
End obj_lemmas.

Section grouping_lemmas.
Context {A V : Type} (key : A → string) (val : A → V).

Lemma members_snoc k l a :
  members key val k (l ++ [a]) =
  members key val k l ++ (if decide (key a = k) then [val a] else []).
Proof.
  unfold members. rewrite filter_app, fmap_app. f_equal.
  rewrite filter_cons, filter_nil. by destruct (decide (key a = k)).
Qed.

Lemma members_nil_notin k l :
  k ∉ key <$> l → members key val k l = [].
Proof.
  intros Hk. unfold members.
  induction l as [|a l IH]; [done|].
  rewrite filter_cons. rewrite fmap_cons, not_elem_of_cons in Hk.
  destruct Hk as [Hne Hk].
  rewrite decide_False by done. by apply IH.
Qed.

Lemma reduce_snoc {S B} (f : S → B → Completion S) l x s :
  reduce f (l ++ [x]) s =
  match reduce f l s with
  | Normal s' => f s' x
  | TypeError => TypeError
  end.
Proof.
  revert s. induction l as [|y l IH]; intros s; simpl.
  - by destruct (f s x).
  - destruct (f s y); [apply IH|done].
Qed.

(** The loop computes the table, unless a key is inherited: then it
    throws. *)
Lemma reduce_pushStep l :
  reduce (pushStep key val) l [] =
  if existsb (λ a, inherited (key a)) l then TypeError
  else Normal (grouped key val l).
Proof.
  induction l as [|a l IH] using rev_ind; [done|].
  rewrite reduce_snoc, IH, existsb_app. simpl.
  destruct (existsb (λ a, inherited (key a)) l) eqn:Hl; [done|]. simpl.
  rewrite orb_false_r. unfold pushStep, grouped.
  rewrite fmap_app. simpl. rewrite firstSeen_snoc, get_tabulate.
  destruct (decide (key a ∈ firstSeen (key <$> l))) as [Hin|Hin].
  - assert (Ha : inherited (key a) = false).
    { apply elem_of_firstSeen, list_elem_of_fmap in Hin as (a' & Heq & Ha').
      apply not_true_is_false. intros Hinh.
      assert (existsb (λ a, inherited (key a)) l = true); [|congruence].
      apply existsb_exists. exists a'.
      split; [by apply list_elem_of_In|congruence]. }
    rewrite Ha. f_equal.
    rewrite decide_True by (by apply elem_of_firstSeen).
    rewrite set_tabulate_in by (done || apply NoDup_firstSeen).
    apply list_fmap_ext. intros i k _. f_equal.
    rewrite members_snoc.
    destruct (decide (k = key a)) as [->|Hne].
    + by rewrite decide_True by done.
    + rewrite decide_False by done. by rewrite app_nil_r.
  - destruct (inherited (key a)); [done|]. f_equal.
    rewrite decide_False by (by rewrite <-elem_of_firstSeen).
    rewrite set_tabulate_notin by done. rewrite fmap_app. simpl.
    f_equal.
    + apply list_fmap_ext. intros i k Hk%list_elem_of_lookup_2. f_equal.
      rewrite members_snoc, decide_False; [by rewrite app_nil_r|].
      intros Heq. apply Hin. by rewrite Heq.
    + rewrite members_snoc, decide_True by done.
      rewrite members_nil_notin; [done|]. by rewrite <-elem_of_firstSeen.
Qed.

Lemma keys_grouped l :
  JsObject.keys (grouped key val l) = firstSeen (key <$> l).
Proof.
  unfold JsObject.keys, grouped. rewrite <-list_fmap_compose.
  apply list_fmap_id.
Qed.

Lemma values_grouped l :
  JsObject.values (grouped key val l) =
  (λ k, members key val k l) <$> firstSeen (key <$> l).
Proof.
  unfold JsObject.values, grouped. by rewrite <-list_fmap_compose.
Qed.

Lemma elem_of_grouped l k g :
  (k, g) ∈ grouped key val l ↔ k ∈ key <$> l ∧ g = members key val k l.
Proof.
  unfold grouped. rewrite list_elem_of_fmap. split.
  - intros (k' & [= -> ->] & Hk). by rewrite <-elem_of_firstSeen.
  - intros [Hk ->]. exists k. by rewrite elem_of_firstSeen.
Qed.

(** Filing every element under its key loses and repeats nothing. *)
Lemma concat_members ks l :
  NoDup ks → (∀ a, a ∈ l → key a ∈ ks) →
  concat ((λ k, members key val k l) <$> ks) ≡ₚ val <$> l.
Proof.
  intros Hnd. induction l as [|a l IH]; intros Hcov.
  - clear. induction ks as [|k ks IH]; [done|]. by rewrite fmap_cons.
  - assert (Hin : key a ∈ ks) by (apply Hcov; by left).
    apply list_elem_of_split in Hin as (ks1 & ks2 & ->).
    apply NoDup_app in Hnd as Hnd'. destruct Hnd' as (_ & Hk1 & Hnd2).
    apply NoDup_cons in Hnd2 as [Hk2 _].
    assert (Hother : ∀ ks' : list string, key a ∉ ks' →
      (λ k, members key val k (a :: l)) <$> ks' =
      (λ k, members key val k l) <$> ks').
    { intros ks' Hks'. apply list_fmap_ext.
      intros i k Hk%list_elem_of_lookup_2. unfold members.
      rewrite filter_cons, decide_False; [done|].
      intros Heq. apply Hks'. by rewrite Heq. }
    rewrite fmap_app, fmap_cons, concat_app, concat_cons.
    rewrite !Hother by (done || (intros ?; by eapply Hk1; [|left])).
    unfold members at 2. rewrite filter_cons, decide_True by done.
    rewrite fmap_cons, <-app_comm_cons, <-Permutation_middle.
    constructor. rewrite <-IH by (intros ??; apply Hcov; by right).
    by rewrite fmap_app, fmap_cons, concat_app, concat_cons.
Qed.

Lemma concat_values_grouped l :
  concat (JsObject.values (grouped key val l)) ≡ₚ val <$> l.
Proof.
  rewrite values_grouped. apply concat_members.
  - apply NoDup_firstSeen.
  - intros a Ha. apply elem_of_firstSeen, list_elem_of_fmap. eauto.
Qed.
End grouping_lemmas.


(** ** The two grouping loops *)

Lemma definitionsByName_cases defs :
  definitionsByName defs =
  if existsb (λ d, inherited (typeName d)) defs then TypeError
  else Normal (grouped typeName id defs).
Proof. exact (reduce_pushStep typeName id defs). Qed.

Lemma buildSimpleEnumDefs_cons d defs :
  buildSimpleEnumDefs (d :: defs) =
  match simpleEnumDef d with
  | Some sd => sd :: buildSimpleEnumDefs defs
  | None => buildSimpleEnumDefs defs
  end.
Proof. done. Qed.

Lemma simpleEnumDef_comparable d :
  comparable d = true ↔ is_Some (simpleEnumDef d).
Proof.
  unfold comparable, simpleEnumDef.
  destruct (serviceName d) as [s|], (values d) as [vs|]; simpl;
    try destruct (bool_decide (s = "")); simpl;
    rewrite ?bool_decide_eq_true; split;
    try done; try (by intros [? ?]); eauto.
Qed.

Lemma simpleEnumDef_Some d sd :
  simpleEnumDef d = Some sd →
  comparable d = true ∧
  serviceName d = Some (sed_serviceName sd) ∧
  values d = Some (sed_nodes sd) ∧
  sed_serviceName sd ≠ "" ∧
  matchingKey (sortValues sd) = signatureOf d.
Proof.
  intros Hsd. split; [apply simpleEnumDef_comparable; eauto|].
  revert Hsd. unfold simpleEnumDef, signatureOf.
  destruct (serviceName d) as [s|], (values d) as [vs|]; try done.
  simpl. destruct (bool_decide_reflect (s = "")); simpl; [done|].
  by intros [= <-].
Qed.

Lemma buildSimpleEnumDefs_filter defs :
  buildSimpleEnumDefs (filter (λ d, comparable d) defs) =
  buildSimpleEnumDefs defs.
Proof.
  induction defs as [|d defs IH]; [done|].
  rewrite filter_cons, buildSimpleEnumDefs_cons.
  destruct (decide (comparable d)) as [Hc|Hc].
  - by rewrite buildSimpleEnumDefs_cons, IH.
  - rewrite IH. destruct (simpleEnumDef d) eqn:Hd; [|done].
    exfalso. apply Hc, Is_true_true, simpleEnumDef_comparable. eauto.
Qed.

Lemma matchingKeys_signatures defs :
  matchingKey <$> (sortValues <$> buildSimpleEnumDefs defs) =
  signatureOf <$> filter (λ d, comparable d) defs.
Proof.
  induction defs as [|d defs IH]; [done|].
  rewrite filter_cons, buildSimpleEnumDefs_cons.
  destruct (simpleEnumDef d) as [sd|] eqn:Hd.
  - apply simpleEnumDef_Some in Hd as (Hc & _ & _ & _ & Hk).
    rewrite decide_True by (by apply Is_true_true).
    rewrite !fmap_cons. by rewrite Hk, IH.
  - rewrite decide_False; [done|].
    intros Hc%Is_true_true%simpleEnumDef_comparable.
    rewrite Hd in Hc. by destruct Hc.
Qed.

Lemma matchingServices_comparable defs :
  sed_serviceName <$> buildSimpleEnumDefs defs =
  servicesWhere comparable defs.
Proof.
  induction defs as [|d defs IH]; [done|].
  rewrite buildSimpleEnumDefs_cons. cbn [servicesWhere].
  destruct (simpleEnumDef d) as [sd|] eqn:Hd.
  - apply simpleEnumDef_Some in Hd as (-> & -> & _).
    rewrite fmap_cons. by rewrite IH.
  - destruct (comparable d) eqn:Hc; [|done].
    apply simpleEnumDef_comparable in Hc. rewrite Hd in Hc. by destruct Hc.
Qed.

Lemma matchingKeys_inherited defs :
  existsb (λ sd, inherited (matchingKey sd))
    (sortValues <$> buildSimpleEnumDefs defs) =
  existsb signatureInherited defs.
Proof.
  induction defs as [|d defs IH]; [done|].
  rewrite buildSimpleEnumDefs_cons. cbn [existsb].
  unfold signatureInherited at 1.
  destruct (simpleEnumDef d) as [sd|] eqn:Hd.
  - apply simpleEnumDef_Some in Hd as (-> & _ & _ & _ & Hk).
    rewrite fmap_cons. cbn [existsb]. by rewrite Hk, IH.
  - destruct (comparable d) eqn:Hc; [|done].
    apply simpleEnumDef_comparable in Hc. rewrite Hd in Hc. by destruct Hc.
Qed.

Lemma buildMatchingEnumGroups_cases defs :
  buildMatchingEnumGroups defs =
  if existsb signatureInherited defs then TypeError
  else Normal (signatureGroups defs).
Proof.
  rewrite <-matchingKeys_inherited.
  exact (reduce_pushStep matchingKey serviceWithNodes
           (sortValues <$> buildSimpleEnumDefs defs)).
Qed.

Lemma buildMatchingEnumGroups_Normal defs groups :
  buildMatchingEnumGroups defs = Normal groups →
  existsb signatureInherited defs = false ∧ groups = signatureGroups defs.
Proof.
  rewrite buildMatchingEnumGroups_cases.
  destruct (existsb signatureInherited defs); [done|]. by intros [= <-].
Qed.

Lemma length_keys_signatureGroups defs :
  length (JsObject.keys (signatureGroups defs)) = signatureCount defs.
Proof.
  unfold signatureGroups. rewrite keys_grouped.
  rewrite matchingKeys_signatures. unfold signatureCount.
  by rewrite firstSeen_remove_dups.
Qed.

(** ** Sorting *)

Lemma sort_Permutation l1 l2 : l1 ≡ₚ l2 → sort l1 = sort l2.
Proof.
  intros Hperm. unfold sort.
  apply (Sorted_unique String.le).
  - apply Sorted_merge_sort; apply _.
  - apply Sorted_merge_sort; apply _.
  - by rewrite !merge_sort_Permutation.
Qed.

(** ** The loop over the groups *)

Section Loop.
Variable logServiceAndType : option string → string → string.

Lemma checkGroup_errors context entry :
  errors (after (checkGroup logServiceAndType context entry)) =
  errors context ++ groupFaults logServiceAndType entry.
Proof.
  unfold groupFaults. destruct entry as [name defs]. unfold checkGroup.
  repeat case_match; simpl; by rewrite ?app_nil_r.
Qed.

Lemma checkGroup_document context entry :
  document (after (checkGroup logServiceAndType context entry)) =
  document context.
Proof.
  destruct entry as [name defs]. unfold checkGroup.
  by repeat case_match.
Qed.

Lemma checkGroup_completion context entry :
  completion (checkGroup logServiceAndType context entry) =
  if groupThrows entry.2 then TypeError else Normal ().
Proof.
  destruct entry as [name defs]. unfold checkGroup, groupThrows. simpl. rewrite buildMatchingEnumGroups_cases.
  destruct (forallb isEnumDefinition defs); simpl.
  - destruct (existsb signatureInherited defs); [done|].
    by case_match.
  - by case_match.
Qed.

Lemma groupFaults_allEnum name defs :
  forallb isEnumDefinition defs = true →
  groupFaults logServiceAndType (name, defs) =
  if existsb signatureInherited defs then []
  else if bool_decide (2 ≤ signatureCount defs) then
    [errorWithCode ENUM_MISMATCH []
       (enumMismatchMessage name (signatureGroups defs))]
  else [].
Proof.
  intros Hall. unfold groupFaults, checkGroup. rewrite Hall.
  rewrite buildMatchingEnumGroups_cases.
  destruct (existsb signatureInherited defs); [done|].
  rewrite length_keys_signatureGroups.
  by destruct (bool_decide_reflect (1 < signatureCount defs));
    [rewrite bool_decide_eq_true_2 by lia
    |rewrite bool_decide_eq_false_2 by lia].
Qed.

Lemma groupFaults_mixed name defs :
  forallb isEnumDefinition defs = false →
  existsb isEnumDefinition defs = true →
  groupFaults logServiceAndType (name, defs) =
  [errorWithCode ENUM_MISMATCH_TYPE []
     (enumMismatchTypeMessage logServiceAndType name defs)].
Proof.
  intros Hall Hsome. unfold groupFaults, checkGroup.
  by rewrite Hall, Hsome.
Qed.

Lemma groupFaults_throws entry :
  groupThrows entry.2 = true → groupFaults logServiceAndType entry = [].
Proof.
  destruct entry as [name defs]. unfold groupThrows. simpl. intros [Hall Hinh]%andb_true_iff.
  by rewrite groupFaults_allEnum, Hinh.
Qed.

(** A group for which nothing is reported leaves the context as it was. *)
Lemma checkGroup_after_nil context entry :
  groupFaults logServiceAndType entry = [] →
  after (checkGroup logServiceAndType context entry) = context.
Proof.
  unfold groupFaults. destruct entry as [name defs]. unfold checkGroup.
  repeat case_match; simpl; done.
Qed.

Lemma checkGroups_errors context groups :
  errors (after (checkGroups logServiceAndType context groups)) =
  errors context ++
  concat (groupFaults logServiceAndType <$> scanned groups).
Proof.
  revert context. induction groups as [|entry groups IH]; intros context.
  - simpl. by rewrite app_nil_r.
  - cbn [checkGroups scanned]. rewrite checkGroup_completion.
    destruct (groupThrows entry.2) eqn:Hthrow.
    + rewrite checkGroup_errors, groupFaults_throws by done. done.
    + rewrite fmap_cons, concat_cons, IH, checkGroup_errors.
      by rewrite <-app_assoc.
Qed.

Lemma checkGroups_document context groups :
  document (after (checkGroups logServiceAndType context groups)) =
  document context.
Proof.
  revert context. induction groups as [|entry groups IH];
    intros context; [done|].
  cbn [checkGroups]. rewrite checkGroup_completion.
  destruct (groupThrows entry.2).
  - apply checkGroup_document.
  - by rewrite IH, checkGroup_document.
Qed.

Lemma checkGroups_completion context groups :
  completion (checkGroups logServiceAndType context groups) =
  if existsb (λ entry, groupThrows entry.2) groups
  then TypeError else Normal ().
Proof.
  revert context. induction groups as [|entry groups IH];
    intros context; [done|].
  cbn [checkGroups existsb]. rewrite checkGroup_completion.
  destruct (groupThrows entry.2) eqn:Hthrow.
  - by rewrite checkGroup_completion, Hthrow.
  - apply IH.
Qed.

Lemma scanned_all groups :
  existsb (λ entry, groupThrows entry.2) groups = false →
  scanned groups = groups.
Proof.
  induction groups as [|entry groups IH]; [done|]. simpl.
  intros [-> ?]%orb_false_iff. by rewrite IH.
Qed.

End Loop.

(** ** Counting signatures *)

Lemma NoDup_two_distinct (l : list string) :
  NoDup l → 2 ≤ length l ↔ ∃ x y, x ∈ l ∧ y ∈ l ∧ x ≠ y.
Proof.
  intros Hnd. split.
  - destruct l as [|x [|y l]]; simpl; [lia..|]. intros _.
    exists x, y. split_and!; [by left|by right; left|].
    apply NoDup_cons in Hnd as [Hx _]. intros ->. apply Hx. by left.
  - intros (x & y & Hx & Hy & Hne).
    destruct l as [|a [|b l]]; simpl; [|exfalso|lia].
    + by apply elem_of_nil in Hx.
    + apply list_elem_of_singleton in Hx, Hy. congruence.
Qed.

Lemma signatureCount_two defs :
  2 ≤ signatureCount defs ↔
  ∃ d1 d2, d1 ∈ defs ∧ d2 ∈ defs ∧
    comparable d1 = true ∧ comparable d2 = true ∧
    signatureOf d1 ≠ signatureOf d2.
Proof.
  unfold signatureCount.
  rewrite NoDup_two_distinct by apply NoDup_remove_dups.
  setoid_rewrite elem_of_remove_dups.
  setoid_rewrite list_elem_of_fmap.
  setoid_rewrite list_elem_of_filter.
  setoid_rewrite Is_true_true.
  split.
  - intros (x & y & (d1 & -> & ? & ?) & (d2 & -> & ? & ?) & Hne).
    exists d1, d2. eauto 10.
  - intros (d1 & d2 & ? & ? & ? & ? & Hne).
    exists (signatureOf d1), (signatureOf d2). eauto 10.
Qed.

(** ** A run of the rule *)

Section Run.
Variable logServiceAndType : option string → string → string.

Lemma MatchingEnums_errors context :
  errors (after (MatchingEnums logServiceAndType context)) =
  errors context ++
  concat (groupFaults logServiceAndType
            <$> scannedGroups (getDocument context)).
Proof.
  unfold MatchingEnums, scannedGroups, JsObject.entries.
  rewrite definitionsByName_cases.
  destruct (existsb (λ d, inherited (typeName d)) (getDocument context)).
  - simpl. by rewrite app_nil_r.
  - apply checkGroups_errors.
Qed.

Lemma MatchingEnums_document context :
  document (after (MatchingEnums logServiceAndType context)) =
  document context.
Proof.
  unfold MatchingEnums. destruct (definitionsByName (getDocument context));
    [apply checkGroups_document|done].
Qed.

Lemma MatchingEnums_completion context :
  completion (MatchingEnums logServiceAndType context) =
  if runThrows (getDocument context) then TypeError else Normal ().
Proof.
  unfold MatchingEnums, runThrows, JsObject.entries.
  rewrite definitionsByName_cases.
  destruct (existsb (λ d, inherited (typeName d)) (getDocument context));
    [done|].
  apply checkGroups_completion.
Qed.

Lemma scannedGroups_all defs :
  runThrows defs = false → scannedGroups defs = grouped typeName id defs.
Proof.
  unfold runThrows, scannedGroups. intros [-> ?]%orb_false_iff.
  by apply scanned_all.
Qed.

Lemma groupFaults_inconsistent name defs :
  groupThrows defs = false → inconsistent defs →
  ∃ fault, groupFaults logServiceAndType (name, defs) = [fault].
Proof.
  unfold groupThrows. intros Hthrow [[Hall Hn]|[Hsome Hall]].
  - rewrite Hall in Hthrow. simpl in Hthrow.
    rewrite groupFaults_allEnum, Hthrow by done.
    rewrite bool_decide_eq_true_2 by done. eauto.
  - rewrite groupFaults_mixed by done. eauto.
Qed.

Lemma groupFaults_consistent name defs :
  ¬ inconsistent defs → groupFaults logServiceAndType (name, defs) = [].
Proof.
  intros Hcons. unfold inconsistent in Hcons.
  destruct (forallb isEnumDefinition defs) eqn:Hall.
  - rewrite groupFaults_allEnum by done.
    destruct (existsb signatureInherited defs); [done|].
    rewrite bool_decide_eq_false_2; [done|]. intros ?. apply Hcons. by left.
  - destruct (existsb isEnumDefinition defs) eqn:Hsome.
    + exfalso. apply Hcons. by right.
    + unfold groupFaults, checkGroup. by rewrite Hall, Hsome.
Qed.

Lemma length_groupFaults
    (groups : list (string * list TypeDefinitionNode)) :
  existsb (λ entry, groupThrows entry.2) groups = false →
  length (concat (groupFaults logServiceAndType <$> groups)) =
  length (filter (λ entry, inconsistent entry.2) groups).
Proof.
  induction groups as [|[name defs] groups IH]; [done|].
  cbn [existsb]. intros [Hthrow Hrest]%orb_false_iff. simpl in Hthrow.
  rewrite fmap_cons, concat_cons, length_app, IH, filter_cons by done.
  simpl. destruct (decide (inconsistent defs)) as [Hi|Hi].
  - destruct (groupFaults_inconsistent name defs Hthrow Hi) as [fault ->].
    done.
  - by rewrite groupFaults_consistent.
Qed.

End Run.

(** ** The claims *)

(** C1: in a group whose definitions are all enum definitions, counting
    only the definitions that have both a service name and values, the
    rule reports an error exactly when these definitions carry two or more
    distinct signatures, then exactly one error, with code ENUM_MISMATCH,
    and with exactly one signature nothing: this holds as long as no
    signature is the name of a member of [Object.prototype].  It fails
    otherwise: when service A declares the single value [valueOf] and
    service B the single value [RED], there are two signatures, but the
    rule throws a TypeError and reports nothing. *)
Theorem enum_mismatch_iff_distinct_signatures :
  (∀ (logServiceAndType : option string → string → string)
     (context : SDLValidationContext) (name : string)
     (defs : list TypeDefinitionNode),
     forallb isEnumDefinition defs = true →
     existsb signatureInherited defs = false →
     completion (checkGroup logServiceAndType context (name, defs)) =
       Normal () ∧
     (2 ≤ signatureCount defs ↔
        ∃ d1 d2, d1 ∈ defs ∧ d2 ∈ defs ∧
          comparable d1 = true ∧ comparable d2 = true ∧
          signatureOf d1 ≠ signatureOf d2) ∧
     (errors (after (checkGroup logServiceAndType context (name, defs)))
        ≠ errors context
        ↔ 2 ≤ signatureCount defs) ∧
     (2 ≤ signatureCount defs →
        ∃ fault,
          errors (after (checkGroup logServiceAndType context (name, defs)))
            = errors context ++ [fault] ∧
          code fault = ENUM_MISMATCH) ∧
     (signatureCount defs = 1 →
        errors (after (checkGroup logServiceAndType context (name, defs)))
          = errors context))
  ∧
  let defs := [enumDef "Color" (Some "A") ["valueOf"];
               enumDef "Color" (Some "B") ["RED"]] in
  forallb isEnumDefinition defs = true ∧
  signatureCount defs = 2 ∧
  (∀ (logServiceAndType : option string → string → string)
     (context : SDLValidationContext),
     checkGroup logServiceAndType context ("Color", defs) =
     {| after := context; completion := TypeError |}) ∧
  MatchingEnums sampleLogServiceAndType (freshContext defs) =
    {| after := freshContext defs; completion := TypeError |}.
Proof.
  split.
  - intros logServiceAndType context name defs Hall Hinh. split.
    { rewrite checkGroup_completion. unfold groupThrows. simpl.
      by rewrite Hinh, andb_false_r. }
    split; [apply signatureCount_two|].
    rewrite checkGroup_errors, groupFaults_allEnum, Hinh by done.
    destruct (bool_decide_reflect (2 ≤ signatureCount defs)) as [Hn|Hn].
    + split_and!.
      * split; [done|]. intros _ Heq.
        apply (f_equal length) in Heq. rewrite length_app in Heq.
        simpl in Heq. lia.
      * intros _. eexists. split; [done|]. done.
      * lia.
    + rewrite app_nil_r. split_and!; [|done..]. split; [done|lia].
  - intros defs. split_and!; reflexivity.
Qed.

(** C2: grouping by name sends the empty list of definitions to the empty
    object.  Whenever it returns, the groups have distinct names, the
    group of a name holds exactly the definitions of that name, in their
    order in the input, every definition lies in the group of its name and
    in no other, and the groups together hold every definition once.  But
    it does not always return: it throws a TypeError exactly when a
    definition is named like a member of [Object.prototype], as the
    object type [constructor] of service A is. *)
Theorem definitionsByName_partition :
  definitionsByName [] = Normal [] ∧
  (∀ defs : list TypeDefinitionNode,
     definitionsByName defs = TypeError ↔
     ∃ d, d ∈ defs ∧ typeName d ∈ JsObject.prototypeMembers) ∧
  (∀ (defs : list TypeDefinitionNode) (byName : TypeToDefinitionsMap),
     definitionsByName defs = Normal byName →
     NoDup (JsObject.keys byName) ∧
     (∀ name group,
        (name, group) ∈ JsObject.entries byName ↔
        group ≠ [] ∧ group = filter (λ d, typeName d = name) defs) ∧
     (∀ d, d ∈ defs →
        ∃ group, (typeName d, group) ∈ JsObject.entries byName ∧ d ∈ group) ∧
     (∀ d name group,
        (name, group) ∈ JsObject.entries byName →
        d ∈ group → typeName d = name ∧ d ∈ defs) ∧
     concat (JsObject.values byName) ≡ₚ defs) ∧
  definitionsByName [objectDef "constructor" (Some "A")] = TypeError ∧
  MatchingEnums sampleLogServiceAndType
    (freshContext [objectDef "constructor" (Some "A")]) =
  {| after := freshContext [objectDef "constructor" (Some "A")];
     completion := TypeError |}.
Proof.
  split; [done|]. split; [|split; [|split; reflexivity]].
  { intros defs. rewrite definitionsByName_cases.
    destruct (existsb (λ d, inherited (typeName d)) defs) eqn:Hex.
    - split; [intros _|done].
      apply existsb_exists in Hex as (d & Hd%list_elem_of_In & Hi).
      exists d. split; [done|]. by apply bool_decide_eq_true in Hi.
    - split; [done|]. intros (d & Hd & Hi).
      assert (existsb (λ d, inherited (typeName d)) defs = true);
        [|congruence].
      apply existsb_exists. exists d.
      split; [by apply list_elem_of_In|by apply bool_decide_eq_true]. }
  intros defs byName. rewrite definitionsByName_cases.
  destruct (existsb (λ d, inherited (typeName d)) defs); [done|].
  intros [= <-]. unfold JsObject.entries.
  assert (Hmem : ∀ name,
    members typeName id name defs = filter (λ d, typeName d = name) defs).
  { intros name. unfold members. apply list_fmap_id. }
  assert (Hkey : ∀ name, name ∈ typeName <$> defs ↔
    filter (λ d, typeName d = name) defs ≠ []).
  { intros name. rewrite list_elem_of_fmap. split.
    - intros (d & -> & Hd) Hnil.
      assert (Hd' : d ∈ filter (λ d', typeName d' = typeName d) defs)
        by (by apply list_elem_of_filter).
      rewrite Hnil in Hd'. by apply elem_of_nil in Hd'.
    - intros Hne.
      destruct (filter (λ d, typeName d = name) defs) as [|d l] eqn:Hf;
        [done|].
      assert (Hd : d ∈ filter (λ d, typeName d = name) defs)
        by (rewrite Hf; by left).
      apply list_elem_of_filter in Hd as [Hd1 Hd2]. eauto. }
  split_and!.
  - rewrite keys_grouped. apply NoDup_firstSeen.
  - intros name group. rewrite elem_of_grouped, Hmem, Hkey.
    split; intros [H1 H2]; subst; done.
  - intros d Hd. exists (filter (λ d', typeName d' = typeName d) defs).
    rewrite elem_of_grouped, Hmem, list_elem_of_filter.
    split_and!; try done. apply list_elem_of_fmap. eauto.
  - intros d name group [_ ->]%elem_of_grouped. rewrite Hmem.
    by intros [? ?]%list_elem_of_filter.
  - rewrite concat_values_grouped. by rewrite list_fmap_id.
Qed.

(** C3: the signature of an enum depends on its value names up to their
    order only: two lists of enum values whose names are permutations of
    each other have the same signature, and so have two lists without
    repeated names that hold the same set of names; and a group of enum
    definitions whose value lists are all permutations of one another gets
    no error. *)
Theorem signature_order_independent
    (logServiceAndType : option string → string → string) :
  (∀ vs1 vs2 : list EnumValueDefinitionNode,
     enumValueNames vs1 ≡ₚ enumValueNames vs2 →
     signature vs1 = signature vs2) ∧
  (∀ vs1 vs2 : list EnumValueDefinitionNode,
     NoDup (enumValueNames vs1) → NoDup (enumValueNames vs2) →
     (∀ v, v ∈ enumValueNames vs1 ↔ v ∈ enumValueNames vs2) →
     signature vs1 = signature vs2) ∧
  (∀ (context : SDLValidationContext) (name : string)
     (defs : list TypeDefinitionNode),
     forallb isEnumDefinition defs = true →
     (∀ d1 d2 vs1 vs2, d1 ∈ defs → d2 ∈ defs →
        values d1 = Some vs1 → values d2 = Some vs2 →
        enumValueNames vs1 ≡ₚ enumValueNames vs2) →
     errors (after (checkGroup logServiceAndType context (name, defs))) =
       errors context).
Proof.
  assert (Hsig : ∀ vs1 vs2 : list EnumValueDefinitionNode,
    enumValueNames vs1 ≡ₚ enumValueNames vs2 →
    signature vs1 = signature vs2).
  { intros vs1 vs2 Hperm. unfold signature. f_equal.
    by apply sort_Permutation. }
  split; [done|]. split.
  { intros vs1 vs2 Hnd1 Hnd2 Hset. by apply Hsig, NoDup_Permutation. }
  intros context name defs Hall Hperm.
  rewrite checkGroup_errors, groupFaults_allEnum by done.
  destruct (existsb signatureInherited defs); [by rewrite app_nil_r|].
  rewrite bool_decide_eq_false_2; [by rewrite app_nil_r|].
  intros (d1 & d2 & Hd1 & Hd2 & Hc1 & Hc2 & Hne)%signatureCount_two.
  apply Hne. unfold signatureOf.
  apply simpleEnumDef_comparable in Hc1 as [sd1 Hsd1].
  apply simpleEnumDef_comparable in Hc2 as [sd2 Hsd2].
  apply simpleEnumDef_Some in Hsd1 as (_ & _ & Hv1 & _).
  apply simpleEnumDef_Some in Hsd2 as (_ & _ & Hv2 & _).
  rewrite Hv1, Hv2. simpl. apply Hsig. eauto.
Qed.

Lemma signature_order_independent_witness :
  let defs := [enumDef "Color" (Some "A") ["A"; "B"];
               enumDef "Color" (Some "B") ["B"; "A"]] in
  signature [enumValue "A"; enumValue "B"] =
    signature [enumValue "B"; enumValue "A"] ∧
  errors (after (checkGroup sampleLogServiceAndType (freshContext defs)
                   ("Color", defs))) = [].
Proof.
  intros defs. split.
  - apply (proj1 (signature_order_independent sampleLogServiceAndType)).
    apply perm_swap.
  - apply (proj2 (proj2 (signature_order_independent sampleLogServiceAndType))
             (freshContext defs) "Color" defs); [reflexivity|].
    intros d1 d2 vs1 vs2 Hd1 Hd2 Hv1 Hv2.
    apply elem_of_cons in Hd1 as [->|Hd1];
      [|apply list_elem_of_singleton in Hd1 as ->];
    (apply elem_of_cons in Hd2 as [->|Hd2];
      [|apply list_elem_of_singleton in Hd2 as ->]);
    injection Hv1 as <-; injection Hv2 as <-;
    first [reflexivity | apply perm_swap].
Defined.

(** ** Service lists of a group of mixed kinds *)

Lemma filter_isString_cons o l :
  filter_isString (o :: l) =
  match o with
  | Some s => s :: filter_isString l
  | None => filter_isString l
  end.
Proof. by destruct o. Qed.

Lemma services_where (P : TypeDefinitionNode → bool) defs :
  filter_isString (serviceName <$> List.filter P defs) = servicesWhere P defs.
Proof.
  induction defs as [|d defs IH]; [done|].
  cbn [List.filter servicesWhere].
  destruct (P d); [|done].
  rewrite fmap_cons, filter_isString_cons.
  destruct (serviceName d); by rewrite IH.
Qed.

Lemma servicesWithEnum_where defs :
  servicesWithEnum defs = servicesWhere isEnumDefinition defs.
Proof. apply services_where. Qed.

Lemma servicesWithoutEnum_where defs :
  servicesWithoutEnum defs =
  servicesWhere (λ d, negb (isEnumDefinition d)) defs.
Proof. apply (services_where (λ d, negb (isEnumDefinition d))). Qed.

Lemma elem_of_servicesWhere P defs s :
  s ∈ servicesWhere P defs ↔
  ∃ d, d ∈ defs ∧ P d = true ∧ serviceName d = Some s.
Proof.
  induction defs as [|d defs IH]; simpl.
  - split; [by intros ?%elem_of_nil|]. by intros (? & ?%elem_of_nil & _).
  - setoid_rewrite elem_of_cons.
    destruct (P d) eqn:HP; [destruct (serviceName d) as [s'|] eqn:Hs|];
      rewrite ?elem_of_cons, IH; split.
    + intros [->|(d' & ? & ? & ?)]; eauto 8.
    + intros (d' & [->|?] & ? & ?); [left; congruence|right; eauto].
    + intros (d' & ? & ? & ?); eauto 8.
    + intros (d' & [->|?] & ? & ?); [congruence|eauto].
    + intros (d' & ? & ? & ?); eauto 8.
    + intros (d' & [->|?] & ? & ?); [congruence|eauto].
Qed.

Lemma servicesWhere_named P defs :
  servicesWhere P (filter (λ d, is_Some (serviceName d)) defs) =
  servicesWhere P defs.
Proof.
  induction defs as [|d defs IH]; [done|].
  rewrite filter_cons.
  destruct (decide (is_Some (serviceName d))) as [Hs|Hs]; simpl.
  - by rewrite IH.
  - rewrite IH. destruct (serviceName d) eqn:Hd; [|by destruct (P d)].
    exfalso. apply Hs. eauto.
Qed.

Lemma mixed_kinds defs :
  (∃ d, d ∈ defs ∧ isEnumDefinition d = true) →
  (∃ d, d ∈ defs ∧ isEnumDefinition d = false) →
  forallb isEnumDefinition defs = false ∧
  existsb isEnumDefinition defs = true.
Proof.
  intros (d1 & Hd1 & He1) (d2 & Hd2 & He2). split.
  - apply not_true_is_false. intros Hall%Is_true_true%forallb_True.
    rewrite Forall_forall in Hall. specialize (Hall d2 Hd2).
    rewrite He2 in Hall. done.
  - apply Is_true_true, existb_True, Exists_exists.
    exists d1. by rewrite He1.
Qed.

(** ** The services of the signature groups *)

Lemma groupServices_comparable defs :
  groupServices (signatureGroups defs) ≡ₚ servicesWhere comparable defs.
Proof.
  unfold groupServices, signatureGroups.
  rewrite concat_values_grouped.
  rewrite <-matchingServices_comparable, <-!list_fmap_compose.
  done.
Qed.

Lemma signatureGroups_member defs key group member :
  (key, group) ∈ signatureGroups defs → member ∈ group →
  ∃ d, d ∈ defs ∧ comparable d = true ∧
    serviceName d = Some (swn_serviceName member) ∧
    values d = Some (swn_nodes member) ∧
    swn_serviceName member ≠ "" ∧
    key = signatureOf d.
Proof.
  unfold signatureGroups. rewrite elem_of_grouped.
  intros [_ ->]. unfold members.
  rewrite list_elem_of_fmap. intros (sd' & -> & Hsd').
  apply list_elem_of_filter in Hsd' as [Hkey Hsd'].
  apply list_elem_of_fmap in Hsd' as (sd & -> & Hsd).
  apply list_elem_of_omap in Hsd as (d & Hd & Hsd).
  apply simpleEnumDef_Some in Hsd as (? & ? & ? & ? & ?).
  exists d. simpl. split_and!; try done. congruence.
Qed.

Lemma buildMatchingEnumGroups_filter defs :
  buildMatchingEnumGroups (filter (λ d, comparable d) defs) =
  buildMatchingEnumGroups defs.
Proof.
  unfold buildMatchingEnumGroups. by rewrite buildSimpleEnumDefs_filter.
Qed.

Lemma forallb_filter_comparable defs :
  forallb isEnumDefinition defs = true →
  forallb isEnumDefinition (filter (λ d, comparable d) defs) = true.
Proof.
  intros Hall%Is_true_true%forallb_True.
  apply Is_true_true, forallb_True.
  rewrite Forall_forall in *. intros d [_ Hd]%list_elem_of_filter. eauto.
Qed.

(** C4: a group holding at least one enum definition and at least one
    definition of another kind gets exactly one error.  Its code is
    ENUM_MISMATCH_TYPE and its message, after the prefix of the helper,
    names the type, lists the service names of the enum definitions and
    then those of the other definitions, both in the order of the group and
    without the definitions that have no service name. *)
Theorem enum_mismatch_type_fault
    (logServiceAndType : option string → string → string)
    (context : SDLValidationContext) (name : string)
    (defs : list TypeDefinitionNode) :
  (∃ d, d ∈ defs ∧ isEnumDefinition d = true) →
  (∃ d, d ∈ defs ∧ isEnumDefinition d = false) →
  let withEnum := servicesWhere isEnumDefinition defs in
  let withoutEnum := servicesWhere (λ d, negb (isEnumDefinition d)) defs in
  errors (after (checkGroup logServiceAndType context (name, defs))) =
  errors context ++
  [ {| code := ENUM_MISMATCH_TYPE;
       impactedServices := [];
       message :=
         logServiceAndType (withEnum !! 0%nat) name +:+
         name +:+ " is an enum in [" +:+ join ", " withEnum +:+
         "], but not in [" +:+ join ", " withoutEnum +:+ "]" |} ].
Proof.
  intros Hsome Hother. destruct (mixed_kinds defs Hsome Hother).
  rewrite checkGroup_errors, groupFaults_mixed by done.
  unfold enumMismatchTypeMessage.
  by rewrite servicesWithEnum_where, servicesWithoutEnum_where.
Qed.

Lemma enum_mismatch_type_fault_witness :
  let defs := [enumDef "Status" (Some "A") ["ACTIVE"; "DONE"];
               objectDef "Status" (Some "B")] in
  errors (after (checkGroup sampleLogServiceAndType (freshContext defs)
                   ("Status", defs))) =
  [ {| code := ENUM_MISMATCH_TYPE;
       impactedServices := [];
       message :=
         "[A] Status -> Status is an enum in [A], but not in [B]" |} ].
Proof.
  intros defs.
  apply (enum_mismatch_type_fault sampleLogServiceAndType
           (freshContext defs) "Status" defs).
  - exists (enumDef "Status" (Some "A") ["ACTIVE"; "DONE"]).
    split; [by left|reflexivity].
  - exists (objectDef "Status" (Some "B")).
    split; [by right; left|reflexivity].
Defined.

(** ** The message of ENUM_MISMATCH *)

Lemma length_matching_members defs sig :
  length (filter (λ sd, matchingKey sd = sig)
            (sortValues <$> buildSimpleEnumDefs defs)) =
  length (filter (λ d, comparable d ∧ signatureOf d = sig) defs).
Proof.
  induction defs as [|d defs IH]; [done|].
  rewrite buildSimpleEnumDefs_cons, (filter_cons _ d).
  destruct (simpleEnumDef d) as [sd|] eqn:Hd.
  - apply simpleEnumDef_Some in Hd as (Hc & _ & _ & _ & Hk).
    rewrite fmap_cons, filter_cons, Hk.
    destruct (decide (signatureOf d = sig)) as [Heq|Hne].
    + rewrite decide_True by (split; [by apply Is_true_true|done]).
      simpl. by rewrite IH.
    + rewrite decide_False by (by intros [_ ?]). done.
  - rewrite decide_False; [done|].
    intros [Hc%Is_true_true%simpleEnumDef_comparable _].
    rewrite Hd in Hc. by destruct Hc.
Qed.

Lemma enumMismatchMessage_objects name defs :
  enumMismatchMessage name (signatureGroups defs) =
  "The `" +:+ name +:+
  "` enum does not have identical values in all services. Groups of services with identical values are: " +:+
  join ", "
    ((λ sig,
        "[" +:+
        join ", "
          (replicate
             (length (filter (λ d, comparable d ∧ signatureOf d = sig) defs))
             "[object Object]") +:+
        "]")
     <$> firstSeen (signatureOf <$> filter (λ d, comparable d) defs)).
Proof.
  unfold enumMismatchMessage, signatureGroups. do 3 f_equal.
  rewrite values_grouped.
  rewrite matchingKeys_signatures, <-list_fmap_compose.
  f_equal. apply list_fmap_ext. intros _ sig _. simpl. do 3 f_equal.
  rewrite <-length_matching_members. unfold members.
  rewrite <-list_fmap_compose.
  generalize (filter (λ sd, matchingKey sd = sig)
                (sortValues <$> buildSimpleEnumDefs defs)).
  intros l. induction l as [|sd l IH]; [done|].
  rewrite fmap_cons. simpl. by rewrite IH.
Qed.

Lemma groupFaults_impactedServices
    (logServiceAndType : option string → string → string) entry :
  Forall (λ fault, impactedServices fault = [])
    (groupFaults logServiceAndType entry).
Proof.
  destruct entry as [name defs]. unfold groupFaults, checkGroup.
  repeat case_match; simpl; repeat constructor.
Qed.

(** An error with code ENUM_MISMATCH is reported only once the signature
    groups are built. *)
Lemma enum_mismatch_built
    (logServiceAndType : option string → string → string)
    context name defs fault :
  errors (after (checkGroup logServiceAndType context (name, defs))) =
    errors context ++ [fault] →
  code fault = ENUM_MISMATCH →
  forallb isEnumDefinition defs = true ∧
  buildMatchingEnumGroups defs = Normal (signatureGroups defs).
Proof.
  rewrite checkGroup_errors. intros Heq%app_inv_head Hcode.
  rewrite buildMatchingEnumGroups_cases.
  destruct (forallb isEnumDefinition defs) eqn:Hall.
  - rewrite groupFaults_allEnum in Heq by done.
    by destruct (existsb signatureInherited defs).
  - destruct (existsb isEnumDefinition defs) eqn:Hsome.
    + rewrite groupFaults_mixed in Heq by done.
      injection Heq as <-. done.
    + unfold groupFaults, checkGroup in Heq.
      by rewrite Hall, Hsome in Heq.
Qed.

(** C5, as stated, fails: an enum definition that has a service name but no
    list of values is passed over when the signature groups are built.
    Services A and B disagree, the error is reported, and service C, which
    also contributes an enum definition of the type, is in no group. *)
Lemma signature_groups_miss_enum_service :
  let defs := [enumDef "Color" (Some "A") ["RED"];
               enumDef "Color" (Some "B") ["BLUE"];
               {| kind := ENUM_TYPE_DEFINITION;
                  name := {| value := "Color" |};
                  serviceName := Some "C";
                  values := None |}] in
  (∃ fault,
     errors (after (MatchingEnums sampleLogServiceAndType
                      (freshContext defs))) = [fault] ∧
     code fault = ENUM_MISMATCH) ∧
  (∃ d, d ∈ defs ∧ isEnumDefinition d = true ∧ serviceName d = Some "C") ∧
  ∃ groups,
    buildMatchingEnumGroups defs = Normal groups ∧
    groupServices groups = ["A"; "B"] ∧
    "C" ∉ groupServices groups.
Proof.
  intros defs. split_and!.
  - eexists. split; reflexivity.
  - eexists. split_and!; [by do 2 right; left|reflexivity..].
  - eexists. split_and!; [reflexivity..|].
    vm_compute. intros Hin.
    repeat (apply elem_of_cons in Hin as [Hin|Hin]; [discriminate|]).
    by apply elem_of_nil in Hin.
Qed.

(** C5, amended: whenever the signature groups of a group of definitions
    are built, and so for every reported ENUM_MISMATCH error, the services
    listed in them are those of the definitions that have both a non-empty
    service name and a list of values, each listed once per such
    definition. *)
Theorem signature_groups_cover_comparable_services
    (defs : list TypeDefinitionNode) :
  (∀ groups : MatchingEnumGroups,
     buildMatchingEnumGroups defs = Normal groups →
     groupServices groups ≡ₚ servicesWhere comparable defs ∧
     ∀ s, s ∈ groupServices groups ↔
          ∃ d, d ∈ defs ∧ comparable d = true ∧ serviceName d = Some s) ∧
  (∀ (logServiceAndType : option string → string → string)
     (context : SDLValidationContext) (name : string)
     (fault : CompositionError),
     errors (after (checkGroup logServiceAndType context (name, defs))) =
       errors context ++ [fault] →
     code fault = ENUM_MISMATCH →
     ∃ groups : MatchingEnumGroups,
       buildMatchingEnumGroups defs = Normal groups ∧
       groupServices groups ≡ₚ servicesWhere comparable defs ∧
       ∀ s, s ∈ groupServices groups ↔
            ∃ d, d ∈ defs ∧ comparable d = true ∧ serviceName d = Some s).
Proof.
  assert (Hcover :
    groupServices (signatureGroups defs) ≡ₚ servicesWhere comparable defs ∧
    ∀ s, s ∈ groupServices (signatureGroups defs) ↔
         ∃ d, d ∈ defs ∧ comparable d = true ∧ serviceName d = Some s).
  { split; [apply groupServices_comparable|].
    intros s. rewrite groupServices_comparable.
    apply elem_of_servicesWhere. }
  split.
  - by intros groups [_ ->]%buildMatchingEnumGroups_Normal.
  - intros logServiceAndType context name fault Hfault Hcode.
    destruct (enum_mismatch_built _ _ _ _ _ Hfault Hcode) as [_ Hbuilt].
    eauto.
Qed.

(** C6: the message of the ENUM_MISMATCH error lists one bracketed group
    per signature, in the order in which the signatures first occur among
    the definitions, but it does not list the service names: the members of
    a signature group are objects, and joining them prints each one as
    [[object Object]].  On three services of which the first two agree,
    the groups are A, B and then C, and the message shows two objects and
    then one. *)
Theorem enum_mismatch_message_prints_objects :
  (∀ (name : string) (defs : list TypeDefinitionNode)
     (groups : MatchingEnumGroups),
     buildMatchingEnumGroups defs = Normal groups →
     enumMismatchMessage name groups =
     "The `" +:+ name +:+
     "` enum does not have identical values in all services. Groups of services with identical values are: " +:+
     join ", "
       ((λ sig,
           "[" +:+
           join ", "
             (replicate
                (length
                   (filter (λ d, comparable d ∧ signatureOf d = sig) defs))
                "[object Object]") +:+
           "]")
        <$> firstSeen (signatureOf <$> filter (λ d, comparable d) defs)))
  ∧
  let defs := [enumDef "Color" (Some "A") ["RED"; "BLUE"];
               enumDef "Color" (Some "B") ["BLUE"; "RED"];
               enumDef "Color" (Some "C") ["RED"; "GREEN"]] in
  message <$> errors (after (MatchingEnums sampleLogServiceAndType
                               (freshContext defs)))
  = ["The `Color` enum does not have identical values in all services. Groups of services with identical values are: [[object Object], [object Object]], [[object Object]]"]
  ∧ ∃ groups : MatchingEnumGroups,
      buildMatchingEnumGroups defs = Normal groups ∧
      (λ entry : string * list ServiceWithNodes,
         (entry.1, swn_serviceName <$> entry.2)) <$>
        JsObject.entries groups
      = [("BLUE,RED", ["A"; "B"]); ("GREEN,RED", ["C"])].
Proof.
  split.
  - intros name defs groups [_ ->]%buildMatchingEnumGroups_Normal.
    apply enumMismatchMessage_objects.
  - split; [reflexivity|]. eexists. split; reflexivity.
Qed.

(** C7: every error the rule reports carries an empty [impactedServices].
    On three services of which the first two agree, the ENUM_MISMATCH
    error is reported with no impacted service, although its signature
    groups hold the services A, B and C. *)
Theorem enum_mismatch_impacted_services_empty :
  (∀ (logServiceAndType : option string → string → string)
     (entry : string * list TypeDefinitionNode),
     Forall (λ fault, impactedServices fault = [])
       (groupFaults logServiceAndType entry))
  ∧
  let defs := [enumDef "Color" (Some "A") ["RED"; "BLUE"];
               enumDef "Color" (Some "B") ["BLUE"; "RED"];
               enumDef "Color" (Some "C") ["RED"; "GREEN"]] in
  ∃ (fault : CompositionError) (groups : MatchingEnumGroups),
    errors (after (MatchingEnums sampleLogServiceAndType
                     (freshContext defs))) = [fault] ∧
    code fault = ENUM_MISMATCH ∧
    buildMatchingEnumGroups defs = Normal groups ∧
    groupServices groups = ["A"; "B"; "C"] ∧
    JsObject.keys (impactedServices fault) = [].
Proof.
  split; [apply groupFaults_impactedServices|].
  intros defs. do 2 eexists. split_and!; reflexivity.
Qed.

(** C8: definitions without a service name or without values do not take
    part in the signature computation: building the signature groups ends
    the same way and gives the same groups as on the remaining definitions,
    and so does the check of a group of enum definitions.  Every member of
    a signature group comes from a definition with a non-empty service name
    and with values.  In a group of mixed kinds the two service lists are
    those of the definitions that have a service name, and every listed
    name is the service name of a definition of the group of the kind in
    question. *)
Theorem malformed_definitions_excluded
    (logServiceAndType : option string → string → string)
    (context : SDLValidationContext) (name : string)
    (defs : list TypeDefinitionNode) :
  buildMatchingEnumGroups defs =
    buildMatchingEnumGroups (filter (λ d, comparable d) defs) ∧
  (forallb isEnumDefinition defs = true →
   checkGroup logServiceAndType context (name, defs) =
   checkGroup logServiceAndType context
     (name, filter (λ d, comparable d) defs)) ∧
  (∀ (groups : MatchingEnumGroups) key group member,
     buildMatchingEnumGroups defs = Normal groups →
     (key, group) ∈ JsObject.entries groups →
     member ∈ group →
     ∃ d, d ∈ defs ∧
       serviceName d = Some (swn_serviceName member) ∧
       values d = Some (swn_nodes member) ∧
       swn_serviceName member ≠ "") ∧
  servicesWithEnum defs =
    servicesWithEnum (filter (λ d, is_Some (serviceName d)) defs) ∧
  servicesWithoutEnum defs =
    servicesWithoutEnum (filter (λ d, is_Some (serviceName d)) defs) ∧
  (∀ s, s ∈ servicesWithEnum defs →
     ∃ d, d ∈ defs ∧ isEnumDefinition d = true ∧ serviceName d = Some s) ∧
  (∀ s, s ∈ servicesWithoutEnum defs →
     ∃ d, d ∈ defs ∧ isEnumDefinition d = false ∧ serviceName d = Some s).
Proof.
  split_and!.
  - by rewrite buildMatchingEnumGroups_filter.
  - intros Hall. unfold checkGroup.
    rewrite Hall, forallb_filter_comparable by done.
    by rewrite buildMatchingEnumGroups_filter.
  - intros groups key group member [_ ->]%buildMatchingEnumGroups_Normal
      Hgroup Hmember.
    destruct (signatureGroups_member _ _ _ _ Hgroup Hmember)
      as (d & ? & ? & ? & ? & ? & ?).
    eauto 10.
  - by rewrite !servicesWithEnum_where, servicesWhere_named.
  - by rewrite !servicesWithoutEnum_where, servicesWhere_named.
  - intros s. rewrite servicesWithEnum_where. apply elem_of_servicesWhere.
  - intros s. rewrite servicesWithoutEnum_where, elem_of_servicesWhere.
    intros (d & ? & Hk%negb_true_iff & ?). eauto.
Qed.

Lemma malformed_definitions_excluded_witness :
  let defs := [enumDef "Color" (Some "A") ["RED"];
               enumDef "Color" None ["BLUE"];
               {| kind := ENUM_TYPE_DEFINITION;
                  name := {| value := "Color" |};
                  serviceName := Some "C";
                  values := None |}] in
  forallb isEnumDefinition defs = true ∧
  checkGroup sampleLogServiceAndType (freshContext defs) ("Color", defs) =
  checkGroup sampleLogServiceAndType (freshContext defs)
    ("Color", [enumDef "Color" (Some "A") ["RED"]]).
Proof.
  intros defs. split; [reflexivity|].
  apply (malformed_definitions_excluded sampleLogServiceAndType
           (freshContext defs) "Color" defs).
  reflexivity.
Defined.

(** C9: there is a group of mixed kinds whose enum definitions all lack a
    service name; its list of services with the enum is empty, its first
    element is undefined, and the error is reported with a message that
    the helper builds from that undefined element. *)
Theorem enum_mismatch_type_reads_head_of_empty_list
    (logServiceAndType : option string → string → string) :
  ∃ (name : string) (defs : list TypeDefinitionNode),
    (∃ d, d ∈ defs ∧ isEnumDefinition d = true) ∧
    (∃ d, d ∈ defs ∧ isEnumDefinition d = false) ∧
    (∀ d, d ∈ defs → isEnumDefinition d = true → serviceName d = None) ∧
    servicesWithEnum defs = [] ∧
    servicesWithEnum defs !! 0%nat = None ∧
    (∀ context,
       errors (after (checkGroup logServiceAndType context (name, defs))) =
       errors context ++
       [errorWithCode ENUM_MISMATCH_TYPE []
          (logServiceAndType None name +:+
           name +:+ " is an enum in [], but not in [B]")]) ∧
    errors (after (MatchingEnums logServiceAndType (freshContext defs))) =
      [errorWithCode ENUM_MISMATCH_TYPE []
         (logServiceAndType None name +:+
          name +:+ " is an enum in [], but not in [B]")].
Proof.
  exists "Status",
    [enumDef "Status" None ["ACTIVE"; "DONE"]; objectDef "Status" (Some "B")].
  split_and!; try reflexivity.
  - eexists. split; [by left|reflexivity].
  - eexists. split; [by right; left|reflexivity].
  - intros d Hd He.
    apply elem_of_cons in Hd as [->|Hd]; [reflexivity|].
    apply list_elem_of_singleton in Hd as ->. discriminate.
Qed.

(** ** All groups are checked, unless the rule throws *)

Lemma runThrows_false defs :
  runThrows defs = false →
  definitionsByName defs = Normal (grouped typeName id defs) ∧
  scannedGroups defs = grouped typeName id defs ∧
  ∀ entry, entry ∈ grouped typeName id defs → groupThrows entry.2 = false.
Proof.
  intros Hrun. split_and!.
  - rewrite definitionsByName_cases.
    apply orb_false_iff in Hrun as [-> _]. done.
  - by apply scannedGroups_all.
  - apply orb_false_iff in Hrun as [_ Hgroups].
    intros entry Hentry. apply not_true_is_false. intros Hthrow.
    assert (existsb (λ entry, groupThrows entry.2)
              (grouped typeName id defs) = true); [|congruence].
    apply existsb_exists. exists entry.
    split; [by apply list_elem_of_In|done].
Qed.

(** C10: the errors of a run are the errors of the groups the loop gets
    through.  As long as no type name and no signature is the name of a
    member of [Object.prototype], the run returns and these are all
    groups: every inconsistent group (enum definitions with two or more
    signatures, or mixed kinds) contributes exactly one error, every other
    group none, whatever was reported before.  It fails otherwise: with
    an enum [Method] whose single value is [toString] between the groups of
    Color and Status, the error of Color is reported, the rule throws a
    TypeError on Method, and the mixed group of Status is never
    checked. *)
Theorem every_group_is_checked :
  (∀ (logServiceAndType : option string → string → string)
     (context : SDLValidationContext),
     errors (after (MatchingEnums logServiceAndType context)) =
       errors context ++
       concat (groupFaults logServiceAndType
                 <$> scannedGroups (getDocument context)) ∧
     (runThrows (getDocument context) = false →
      completion (MatchingEnums logServiceAndType context) = Normal () ∧
      ∃ byName : TypeToDefinitionsMap,
        definitionsByName (getDocument context) = Normal byName ∧
        errors (after (MatchingEnums logServiceAndType context)) =
          errors context ++
          concat (groupFaults logServiceAndType
                    <$> JsObject.entries byName) ∧
        (∀ name defs, (name, defs) ∈ JsObject.entries byName →
           inconsistent defs →
           ∃ fault,
             groupFaults logServiceAndType (name, defs) = [fault] ∧
             fault ∈ errors (after (MatchingEnums logServiceAndType
                                      context))) ∧
        (∀ name defs, (name, defs) ∈ JsObject.entries byName →
           ¬ inconsistent defs →
           groupFaults logServiceAndType (name, defs) = []) ∧
        length (errors (after (MatchingEnums logServiceAndType context))) =
          length (errors context) +
          length (filter (λ entry, inconsistent entry.2)
                    (JsObject.entries byName))))
  ∧
  let defs := [enumDef "Color" (Some "A") ["RED"];
               enumDef "Color" (Some "B") ["BLUE"];
               enumDef "Method" (Some "A") ["toString"];
               enumDef "Status" (Some "A") ["ON"];
               objectDef "Status" (Some "B")] in
  code <$> errors (after (MatchingEnums sampleLogServiceAndType
                            (freshContext defs))) = [ENUM_MISMATCH] ∧
  completion (MatchingEnums sampleLogServiceAndType (freshContext defs)) =
    TypeError ∧
  ∃ byName : TypeToDefinitionsMap,
    definitionsByName defs = Normal byName ∧
    JsObject.keys byName = ["Color"; "Method"; "Status"] ∧
    ∃ status,
      JsObject.get byName "Status" = JsObject.Own status ∧
      existsb isEnumDefinition status = true ∧
      forallb isEnumDefinition status = false ∧
      code <$> groupFaults sampleLogServiceAndType ("Status", status) =
        [ENUM_MISMATCH_TYPE].
Proof.
  split.
  - intros logServiceAndType context.
    split; [apply MatchingEnums_errors|]. intros Hrun.
    destruct (runThrows_false _ Hrun) as (Hby & Hscan & Hthrow).
    assert (Herr :
      errors (after (MatchingEnums logServiceAndType context)) =
      errors context ++
      concat (groupFaults logServiceAndType
                <$> grouped typeName id (getDocument context))).
    { by rewrite MatchingEnums_errors, Hscan. }
    split; [by rewrite MatchingEnums_completion, Hrun|].
    exists (grouped typeName id (getDocument context)).
    unfold JsObject.entries. split_and!; try done.
    + intros name defs Hin Hi.
      destruct (groupFaults_inconsistent logServiceAndType name defs
                  (Hthrow _ Hin) Hi) as [fault Hfault].
      exists fault. split; [done|].
      rewrite Herr, elem_of_app. right.
      apply list_elem_of_In, in_concat. exists [fault]. split; [|by left].
      apply list_elem_of_In, list_elem_of_fmap.
      exists (name, defs). by rewrite Hfault.
    + intros name defs _ Hc. by apply groupFaults_consistent.
    + rewrite Herr, length_app, length_groupFaults; [done|].
      apply orb_false_iff in Hrun as [_ Hgroups]. done.
  - intros defs. split_and!; try reflexivity.
    eexists. split_and!; [reflexivity..|].
    eexists. split_and!; reflexivity.
Qed.

(** * Further properties of the rule *)

(** ** Groups that are not flagged *)

Section Consistent.
Variable logServiceAndType : option string → string → string.

Lemma checkGroups_after_nil context
    (groups : list (string * list TypeDefinitionNode)) :
  Forall (λ entry, groupFaults logServiceAndType entry = []) groups →
  after (checkGroups logServiceAndType context groups) = context.
Proof.
  induction 1 as [|entry groups Hnil _ IH]; [done|].
  cbn [checkGroups].
  destruct (completion (checkGroup logServiceAndType context entry)).
  - by rewrite checkGroup_after_nil.
  - by apply checkGroup_after_nil.
Qed.

Lemma MatchingEnums_after_nil context :
  (∀ name, ¬ inconsistent
             (filter (λ d, typeName d = name) (getDocument context))) →
  after (MatchingEnums logServiceAndType context) = context.
Proof.
  intros Hcons. unfold MatchingEnums, JsObject.entries.
  rewrite definitionsByName_cases.
  destruct (existsb (λ d, inherited (typeName d)) (getDocument context));
    [done|].
  apply checkGroups_after_nil. unfold grouped.
  apply Forall_fmap, Forall_forall. intros name _. simpl.
  apply groupFaults_consistent.
  unfold members. rewrite list_fmap_id. apply Hcons.
Qed.

Lemma grouped_no_throw defs :
  (∀ name, groupThrows (filter (λ d, typeName d = name) defs) = false) →
  existsb (λ entry, groupThrows entry.2) (grouped typeName id defs) = false.
Proof.
  intros Hno. apply not_true_is_false.
  intros (entry & Hentry%list_elem_of_In & Hthrow)%existsb_exists.
  destruct entry as [name group].
  apply elem_of_grouped in Hentry as [_ ->]. simpl in Hthrow.
  unfold members in Hthrow. rewrite list_fmap_id in Hthrow.
  by rewrite Hno in Hthrow.
Qed.
End Consistent.

Lemma existsb_false_Forall {A} (f : A → bool) l :
  existsb f l = false ↔ Forall (λ a, f a = false) l.
Proof.
  induction l as [|a l IH]; simpl.
  - split; [constructor|done].
  - rewrite orb_false_iff, Forall_cons, IH. done.
Qed.

Lemma groupThrows_sublist defs group :
  Forall (λ d, signatureInherited d = false) defs →
  (∀ d, d ∈ group → d ∈ defs) →
  groupThrows group = false.
Proof.
  intros Hdefs Hsub. unfold groupThrows.
  apply andb_false_iff. right. apply existsb_false_Forall.
  rewrite Forall_forall in *. eauto.
Qed.

Lemma length_remove_dups_le (l : list string) :
  length (remove_dups l) ≤ length l.
Proof.
  induction l as [|x l IH]; [done|]. simpl.
  destruct (decide_rel elem_of x l); simpl; lia.
Qed.

Lemma signatureCount_le defs :
  signatureCount defs ≤ length (filter (λ d, comparable d) defs).
Proof.
  unfold signatureCount.
  etrans; [apply length_remove_dups_le|]. by rewrite length_fmap.
Qed.

Lemma no_enum_consistent defs :
  Forall (λ d, isEnumDefinition d = false) defs → ¬ inconsistent defs.
Proof.
  intros Hno [[Hall Hn]|[Hsome _]].
  - destruct defs as [|d defs]; [vm_compute in Hn; lia|].
    apply Forall_cons in Hno as [Hd _]. simpl in Hall.
    rewrite Hd in Hall. done.
  - apply Is_true_true, existb_True, Exists_exists in Hsome
      as (d & Hd & He).
    rewrite Forall_forall in Hno. rewrite (Hno d Hd) in He. done.
Qed.

Lemma short_consistent defs : length defs ≤ 1 → ¬ inconsistent defs.
Proof.
  intros Hlen [[Hall Hn]|[Hsome Hall]].
  - pose proof (signatureCount_le defs) as Hle.
    pose proof (length_filter (λ d, Is_true (comparable d)) defs). lia.
  - destruct defs as [|d [|d' defs]]; simpl in *; [done| |lia].
    rewrite orb_false_r in Hsome. rewrite andb_true_r in Hall. congruence.
Qed.

Lemma length_members_NoDup {A} (key : A → string) (l : list A) k :
  NoDup (key <$> l) → length (filter (λ a, key a = k) l) ≤ 1.
Proof.
  induction l as [|a l IH]; [simpl; lia|].
  rewrite fmap_cons. intros [Ha Hnd]%NoDup_cons.
  rewrite filter_cons. destruct (decide (key a = k)) as [<-|Hne].
  - pose proof (members_nil_notin key id (key a) l Ha) as Hnil.
    unfold members in Hnil. rewrite list_fmap_id in Hnil.
    rewrite Hnil. simpl. lia.
  - by apply IH.
Qed.

(** X1: when grouping by name returns, its keys are the type names in the
    order of their first occurrence in the document, and looking a name up
    gives the definitions of that name in document order; for a name that
    no definition has, the lookup finds the member of [Object.prototype]
    of that name if there is one, and nothing otherwise. *)
Theorem definitionsByName_lookup
    (defs : list TypeDefinitionNode) (byName : TypeToDefinitionsMap) :
  definitionsByName defs = Normal byName →
  JsObject.keys byName = firstSeen (typeName <$> defs) ∧
  ∀ name,
    JsObject.get byName name =
    if decide (name ∈ typeName <$> defs)
    then JsObject.Own (filter (λ d, typeName d = name) defs)
    else if decide (name ∈ JsObject.prototypeMembers)
         then JsObject.Inherited else JsObject.Undefined.
Proof.
  rewrite definitionsByName_cases.
  destruct (existsb (λ d, inherited (typeName d)) defs); [done|].
  intros [= <-]. split; [apply keys_grouped|].
  intros name. unfold grouped. rewrite get_tabulate.
  unfold members. rewrite list_fmap_id.
  destruct (decide (name ∈ typeName <$> defs)) as [Hin|Hin].
  - by rewrite decide_True by (by apply elem_of_firstSeen).
  - rewrite decide_False by (by rewrite elem_of_firstSeen).
    unfold inherited.
    by destruct (decide (name ∈ JsObject.prototypeMembers));
      [rewrite bool_decide_eq_true_2|rewrite bool_decide_eq_false_2].
Qed.

Lemma definitionsByName_lookup_witness :
  let defs := [enumDef "Color" (Some "A") ["RED"];
               objectDef "Query" (Some "A");
               enumDef "Color" (Some "B") ["RED"]] in
  ∃ byName : TypeToDefinitionsMap,
    definitionsByName defs = Normal byName ∧
    JsObject.keys byName = ["Color"; "Query"] ∧
    JsObject.get byName "Product" = JsObject.Undefined ∧
    JsObject.get byName "toString" = JsObject.Inherited.
Proof.
  intros defs. eexists. split; [reflexivity|].
  destruct (definitionsByName_lookup defs _ eq_refl) as [Hkeys Hget].
  split; [exact Hkeys|]. by rewrite !Hget.
Defined.

(** X2: on a document that holds no enum definition the rule reports
    nothing and leaves the context as it was; it returns unless a type is
    named like a member of [Object.prototype], and throws a TypeError if
    one is. *)
Theorem no_enum_no_error
    (logServiceAndType : option string → string → string)
    (context : SDLValidationContext) :
  Forall (λ d, isEnumDefinition d = false) (getDocument context) →
  after (MatchingEnums logServiceAndType context) = context ∧
  completion (MatchingEnums logServiceAndType context) =
    if existsb (λ d, inherited (typeName d)) (getDocument context)
    then TypeError else Normal ().
Proof.
  intros Hno. split.
  - apply MatchingEnums_after_nil. intros name. apply no_enum_consistent.
    rewrite Forall_forall in *. intros d [_ Hd]%list_elem_of_filter. eauto.
  - rewrite MatchingEnums_completion. unfold runThrows.
    rewrite grouped_no_throw; [by rewrite orb_false_r|].
    intros name. unfold groupThrows.
    destruct (filter (λ d, typeName d = name) (getDocument context))
      as [|d group] eqn:Hgroup; [done|].
    assert (Hd : d ∈ filter (λ d, typeName d = name) (getDocument context))
      by (rewrite Hgroup; by left).
    apply list_elem_of_filter in Hd as [_ Hd].
    rewrite Forall_forall in Hno. simpl. by rewrite (Hno d Hd).
Qed.

Lemma no_enum_no_error_witness :
  let defs := [objectDef "Query" (Some "A"); objectDef "Query" (Some "B");
               objectDef "Product" (Some "A")] in
  MatchingEnums sampleLogServiceAndType (freshContext defs) =
  {| after := freshContext defs; completion := Normal () |}.
Proof.
  intros defs.
  destruct (no_enum_no_error sampleLogServiceAndType (freshContext defs))
    as [Hafter Hcompletion]; [repeat constructor|].
  destruct (MatchingEnums sampleLogServiceAndType (freshContext defs)).
  simpl in *. by rewrite Hafter, Hcompletion.
Defined.

(** X3: a run keeps the document and the errors reported before it, and
    what it adds depends on the document only: it is what the rule reports
    on a context with the same document and no errors, and the run ends the
    same way.  Running the rule a second time reports the same errors once
    more. *)
Theorem MatchingEnums_appends
    (logServiceAndType : option string → string → string)
    (context : SDLValidationContext) :
  let added :=
    errors (after (MatchingEnums logServiceAndType
                     (freshContext (getDocument context)))) in
  document (after (MatchingEnums logServiceAndType context)) =
    document context ∧
  errors (after (MatchingEnums logServiceAndType context)) =
    errors context ++ added ∧
  completion (MatchingEnums logServiceAndType context) =
    completion (MatchingEnums logServiceAndType
                  (freshContext (getDocument context))) ∧
  errors (after (MatchingEnums logServiceAndType
                   (after (MatchingEnums logServiceAndType context)))) =
    errors context ++ added ++ added.
Proof.
  intros added.
  assert (Hdoc : ∀ c, document (after (MatchingEnums logServiceAndType c)) =
                      document c).
  { intros c. apply MatchingEnums_document. }
  assert (Herr : ∀ c, errors (after (MatchingEnums logServiceAndType c)) =
    errors c ++ errors (after (MatchingEnums logServiceAndType
                                 (freshContext (getDocument c))))).
  { intros c. by rewrite !MatchingEnums_errors. }
  split_and!; [apply Hdoc|apply Herr| |].
  - by rewrite !MatchingEnums_completion.
  - rewrite Herr. unfold getDocument. rewrite Hdoc.
    rewrite (Herr context). by rewrite <-app_assoc.
Qed.

(** X4: when every type name occurs once in the document, the rule reports
    nothing and leaves the context as it was: a type that a single
    definition declares is never flagged.  The run returns if, moreover,
    no type name and no signature is the name of a member of
    [Object.prototype]. *)
Theorem single_definitions_no_error
    (logServiceAndType : option string → string → string)
    (context : SDLValidationContext) :
  NoDup (typeName <$> getDocument context) →
  after (MatchingEnums logServiceAndType context) = context ∧
  (Forall (λ d, inherited (typeName d) = false ∧
                signatureInherited d = false) (getDocument context) →
   completion (MatchingEnums logServiceAndType context) = Normal ()).
Proof.
  intros Hnd. split.
  - apply MatchingEnums_after_nil. intros name.
    by apply short_consistent, length_members_NoDup.
  - intros Hclean. rewrite MatchingEnums_completion. unfold runThrows.
    rewrite (proj2 (existsb_false_Forall _ _)), grouped_no_throw; [done| |].
    + intros name. eapply groupThrows_sublist.
      * eapply Forall_impl; [exact Hclean|]. by intros d [_ ?].
      * by intros d [_ ?]%list_elem_of_filter.
    + eapply Forall_impl; [exact Hclean|]. by intros d [? _].
Qed.

Lemma single_definitions_no_error_witness :
  let defs := [enumDef "Color" (Some "A") ["RED"; "BLUE"];
               enumDef "Size" (Some "B") ["S"; "L"];
               objectDef "Query" (Some "A")] in
  after (MatchingEnums sampleLogServiceAndType (freshContext defs)) =
    freshContext defs ∧
  completion (MatchingEnums sampleLogServiceAndType (freshContext defs)) =
    Normal ().
Proof.
  intros defs.
  destruct (single_definitions_no_error sampleLogServiceAndType
              (freshContext defs)) as [Hafter Hcompletion].
  - apply (bool_decide_unpack _). vm_compute. exact I.
  - split; [exact Hafter|]. apply Hcompletion.
    repeat constructor.
Defined.

(** ** One verdict per group *)

Lemma codes_groupFaults
    (logServiceAndType : option string → string → string) name defs :
  code <$> groupFaults logServiceAndType (name, defs) =
  if forallb isEnumDefinition defs then
    if existsb signatureInherited defs then []
    else if bool_decide (2 ≤ signatureCount defs) then [ENUM_MISMATCH]
    else []
  else if existsb isEnumDefinition defs then [ENUM_MISMATCH_TYPE] else [].
Proof.
  destruct (forallb isEnumDefinition defs) eqn:Hall.
  - rewrite groupFaults_allEnum by done.
    destruct (existsb signatureInherited defs); [done|].
    by destruct (bool_decide (2 ≤ signatureCount defs)).
  - destruct (existsb isEnumDefinition defs) eqn:Hsome.
    + by rewrite groupFaults_mixed.
    + unfold groupFaults, checkGroup. by rewrite Hall, Hsome.
Qed.

Lemma fmap_concat {A B} (f : A → B) (ls : list (list A)) :
  f <$> concat ls = concat ((λ l : list A, f <$> l) <$> ls).
Proof.
  induction ls as [|l ls IH]; [done|].
  by rewrite fmap_cons, !concat_cons, fmap_app, IH.
Qed.

Lemma length_groupFaults_le
    (logServiceAndType : option string → string → string)
    (groups : list (string * list TypeDefinitionNode)) :
  length (concat (groupFaults logServiceAndType <$> groups)) ≤
  length groups.
Proof.
  induction groups as [|[name defs] groups IH]; [done|].
  rewrite fmap_cons, concat_cons, length_app. simpl.
  assert (length (groupFaults logServiceAndType (name, defs)) ≤ 1); [|lia].
  rewrite <-(length_fmap code), codes_groupFaults.
  repeat case_match; simpl; lia.
Qed.

Lemma length_scanned groups : length (scanned groups) ≤ length groups.
Proof.
  induction groups as [|entry groups IH]; [done|]. simpl.
  destruct (groupThrows entry.2); simpl; lia.
Qed.

(** X5: a group of definitions gets at most one error; its code is
    ENUM_MISMATCH when all definitions of the group are enum definitions
    and ENUM_MISMATCH_TYPE otherwise.  So a run adds at most as many
    errors as the document has distinct type names. *)
Theorem one_error_per_type
    (logServiceAndType : option string → string → string)
    (context : SDLValidationContext) :
  (∀ name defs,
     code <$> groupFaults logServiceAndType (name, defs) = [] ∨
     code <$> groupFaults logServiceAndType (name, defs) =
       [if forallb isEnumDefinition defs
        then ENUM_MISMATCH else ENUM_MISMATCH_TYPE]) ∧
  length (errors (after (MatchingEnums logServiceAndType context))) ≤
    length (errors context) +
    length (remove_dups (typeName <$> getDocument context)).
Proof.
  split.
  - intros name defs. rewrite codes_groupFaults.
    repeat case_match; auto.
  - rewrite MatchingEnums_errors, length_app.
    apply Nat.add_le_mono_l.
    etrans; [apply length_groupFaults_le|].
    unfold scannedGroups.
    destruct (existsb (λ d, inherited (typeName d)) (getDocument context));
      [simpl; lia|].
    etrans; [apply length_scanned|]. unfold grouped.
    by rewrite length_fmap, firstSeen_remove_dups.
Qed.

(** ** Signatures tell value sets apart *)

Lemma append_String c s t : String c s +:+ t = String c (s +:+ t).
Proof. done. Qed.

Lemma append_empty t : "" +:+ t = t.
Proof. done. Qed.

Lemma comma_append r : "," +:+ r = String comma r.
Proof. done. Qed.

Lemma hasComma_append_comma x r : hasComma (x +:+ "," +:+ r) = true.
Proof.
  induction x as [|c x IH].
  - by rewrite append_empty, comma_append.
  - rewrite append_String. simpl. by destruct (Ascii.eqb c comma).
Qed.

Lemma append_comma_inj x y r r' :
  hasComma x = false → hasComma y = false →
  x +:+ "," +:+ r = y +:+ "," +:+ r' → x = y ∧ r = r'.
Proof.
  revert y. induction x as [|c x IH]; intros [|c' y] Hx Hy.
  - rewrite !append_empty, !comma_append. by intros [= ->].
  - rewrite append_empty, append_String, comma_append. intros [= <- _].
    simpl in Hy. done.
  - rewrite append_empty, append_String, comma_append. intros [= -> _].
    simpl in Hx. done.
  - rewrite !append_String. intros [= -> Heq].
    simpl in Hx, Hy. destruct (Ascii.eqb c' comma); [done|].
    destruct (IH y Hx Hy Heq) as [-> ->]. done.
Qed.

Lemma join_comma_inj l1 l2 :
  Forall validName l1 → Forall validName l2 →
  join "," l1 = join "," l2 → l1 = l2.
Proof.
  unfold join. revert l2.
  induction l1 as [|x l1 IH]; intros l2 H1 H2 Heq.
  - destruct l2 as [|y [|y2 l2]]; [done|..];
      apply Forall_cons in H2 as [[Hy _] _]; simpl in Heq.
    + congruence.
    + destruct y; [done|]. rewrite append_String in Heq. done.
  - apply Forall_cons in H1 as [[Hx Hcx] H1].
    destruct l2 as [|y l2].
    { destruct l1; simpl in Heq; [congruence|].
      destruct x; [done|]. rewrite append_String in Heq. done. }
    apply Forall_cons in H2 as [[Hy Hcy] H2].
    destruct l1 as [|x2 l1], l2 as [|y2 l2].
    + simpl in Heq. by subst.
    + simpl in Heq. subst x. by rewrite hasComma_append_comma in Hcx.
    + simpl in Heq. subst y. by rewrite hasComma_append_comma in Hcy.
    + change (x +:+ "," +:+ String.concat "," (x2 :: l1) =
              y +:+ "," +:+ String.concat "," (y2 :: l2)) in Heq.
      apply append_comma_inj in Heq as [-> Heq]; [|done..].
      f_equal. by apply IH.
Qed.

Lemma sort_validName l : Forall validName l → Forall validName (sort l).
Proof. intros Hl. unfold sort. by rewrite merge_sort_Permutation. Qed.

Lemma signature_inj vs1 vs2 :
  Forall validName (enumValueNames vs1) →
  Forall validName (enumValueNames vs2) →
  signature vs1 = signature vs2 →
  enumValueNames vs1 ≡ₚ enumValueNames vs2.
Proof.
  intros H1 H2 Heq. unfold signature in Heq.
  apply join_comma_inj in Heq; [|by apply sort_validName..].
  unfold sort in Heq.
  rewrite <-(merge_sort_Permutation String.le (enumValueNames vs1)), Heq.
  apply merge_sort_Permutation.
Qed.

(** X6: for enum values whose names are not empty and hold no comma, two
    lists of values have the same signature exactly when their names are
    permutations of each other: sorting and joining with commas loses
    nothing but the order. *)
Theorem signature_eq_iff_Permutation
    (vs1 vs2 : list EnumValueDefinitionNode) :
  Forall validName (enumValueNames vs1) →
  Forall validName (enumValueNames vs2) →
  signature vs1 = signature vs2 ↔
  enumValueNames vs1 ≡ₚ enumValueNames vs2.
Proof.
  intros H1 H2. split; [by apply signature_inj|].
  intros Hperm. unfold signature. f_equal. by apply sort_Permutation.
Qed.

Lemma signature_eq_iff_Permutation_witness :
  signature [enumValue "RED"; enumValue "BLUE"] =
    signature [enumValue "BLUE"; enumValue "RED"] ↔
  ["RED"; "BLUE"] ≡ₚ ["BLUE"; "RED"].
Proof.
  apply (signature_eq_iff_Permutation
           [enumValue "RED"; enumValue "BLUE"]
           [enumValue "BLUE"; enumValue "RED"]);
    repeat constructor; done.
Defined.

(** X7: in a group of enum definitions none of whose signatures is the
    name of a member of [Object.prototype], two definitions with a service
    name and values whose value names (not empty, without commas) are not
    permutations of each other always make the rule report the group, with
    one ENUM_MISMATCH error, and return. *)
Theorem different_values_reported
    (logServiceAndType : option string → string → string)
    (context : SDLValidationContext) (name : string)
    (defs : list TypeDefinitionNode) (d1 d2 : TypeDefinitionNode)
    (vs1 vs2 : list EnumValueDefinitionNode) :
  forallb isEnumDefinition defs = true →
  existsb signatureInherited defs = false →
  d1 ∈ defs → d2 ∈ defs →
  truthy (serviceName d1) = true → truthy (serviceName d2) = true →
  values d1 = Some vs1 → values d2 = Some vs2 →
  Forall validName (enumValueNames vs1) →
  Forall validName (enumValueNames vs2) →
  ¬ enumValueNames vs1 ≡ₚ enumValueNames vs2 →
  completion (checkGroup logServiceAndType context (name, defs)) =
    Normal () ∧
  ∃ fault,
    errors (after (checkGroup logServiceAndType context (name, defs))) =
      errors context ++ [fault] ∧
    code fault = ENUM_MISMATCH.
Proof.
  intros Hall Hinh Hd1 Hd2 Hs1 Hs2 Hv1 Hv2 Hn1 Hn2 Hdiff. split.
  { rewrite checkGroup_completion. unfold groupThrows. simpl.
    by rewrite Hinh, andb_false_r. }
  rewrite checkGroup_errors, groupFaults_allEnum, Hinh by done.
  rewrite bool_decide_eq_true_2; [by eexists|].
  apply signatureCount_two. exists d1, d2.
  unfold comparable, signatureOf. rewrite Hs1, Hs2, Hv1, Hv2. simpl.
  split_and!; try done; try (apply bool_decide_eq_true; eauto).
  intros Heq. by apply Hdiff, signature_inj.
Qed.

Lemma different_values_reported_witness :
  let defs := [enumDef "Color" (Some "A") ["RED"; "BLUE"];
               enumDef "Color" (Some "B") ["RED"; "GREEN"]] in
  completion (checkGroup sampleLogServiceAndType (freshContext defs)
                ("Color", defs)) = Normal () ∧
  ∃ fault,
    errors (after (checkGroup sampleLogServiceAndType (freshContext defs)
                     ("Color", defs))) = [fault] ∧
    code fault = ENUM_MISMATCH.
Proof.
  intros defs.
  apply (different_values_reported sampleLogServiceAndType
           (freshContext defs) "Color" defs
           (enumDef "Color" (Some "A") ["RED"; "BLUE"])
           (enumDef "Color" (Some "B") ["RED"; "GREEN"])
           [enumValue "RED"; enumValue "BLUE"]
           [enumValue "RED"; enumValue "GREEN"]);
    try reflexivity.
  - by left.
  - by right; left.
  - repeat constructor; done.
  - repeat constructor; done.
  - intros Hperm.
    assert (Hin : "BLUE" ∈ ["RED"; "GREEN"]).
    { change ("BLUE" ∈ enumValueNames
                [enumValue "RED"; enumValue "GREEN"]).
      rewrite <-Hperm. by right; left. }
    repeat (apply elem_of_cons in Hin as [Hin|Hin]; [discriminate|]).
    by apply elem_of_nil in Hin.
Defined.

(** ** The service lists *)

(** X8: the two service lists of a group split the service names of its
    definitions: every definition that has a service name is listed once,
    with the enums or with the others, and nothing else is listed. *)
Theorem service_lists_partition (defs : list TypeDefinitionNode) :
  servicesWithEnum defs ++ servicesWithoutEnum defs ≡ₚ
  filter_isString (serviceName <$> defs).
Proof.
  rewrite servicesWithEnum_where, servicesWithoutEnum_where.
  induction defs as [|d defs IH]; [done|].
  rewrite fmap_cons, filter_isString_cons. cbn [servicesWhere].
  destruct (isEnumDefinition d), (serviceName d) as [s|]; simpl;
    rewrite <-?Permutation_middle, ?IH; done.
Qed.

Lemma services_of_members defs sig :
  swn_serviceName <$>
    members matchingKey serviceWithNodes sig
      (sortValues <$> buildSimpleEnumDefs defs) =
  servicesWhere (hasSignature sig) defs.
Proof.
  unfold members, hasSignature.
  induction defs as [|d defs IH]; [done|].
  rewrite buildSimpleEnumDefs_cons. cbn [servicesWhere].
  destruct (simpleEnumDef d) as [sd|] eqn:Hd.
  - apply simpleEnumDef_Some in Hd as (-> & -> & _ & _ & Hk).
    rewrite fmap_cons, filter_cons, Hk. simpl.
    destruct (decide (signatureOf d = sig)) as [Heq|Hne].
    + rewrite bool_decide_eq_true_2 by done. rewrite !fmap_cons.
      by rewrite IH.
    + by rewrite bool_decide_eq_false_2.
  - destruct (comparable d) eqn:Hc; [|done].
    apply simpleEnumDef_comparable in Hc. rewrite Hd in Hc. by destruct Hc.
Qed.

(** X9: when the signature groups are built, they are the classes of the
    signature: the keys are the signatures of the definitions that have a
    service name and values, in the order of their first occurrence, and
    the group under a signature lists the services of exactly the
    definitions with that signature, in the order of the definitions.  For
    a signature that no such definition has, the lookup finds the member
    of [Object.prototype] of that name if there is one, and nothing
    otherwise. *)
Theorem signature_groups_lookup
    (defs : list TypeDefinitionNode) (groups : MatchingEnumGroups) :
  buildMatchingEnumGroups defs = Normal groups →
  JsObject.keys groups =
    firstSeen (signatureOf <$> filter (λ d, comparable d) defs) ∧
  ∀ sig : string,
    match JsObject.get groups sig with
    | JsObject.Own group =>
        sig ∈ signatureOf <$> filter (λ d, comparable d) defs ∧
        swn_serviceName <$> group = servicesWhere (hasSignature sig) defs
    | JsObject.Inherited =>
        (sig ∉ signatureOf <$> filter (λ d, comparable d) defs) ∧
        sig ∈ JsObject.prototypeMembers
    | JsObject.Undefined =>
        (sig ∉ signatureOf <$> filter (λ d, comparable d) defs) ∧
        sig ∉ JsObject.prototypeMembers
    end.
Proof.
  intros [_ ->]%buildMatchingEnumGroups_Normal. unfold signatureGroups.
  rewrite keys_grouped, matchingKeys_signatures. split; [done|].
  intros sig. unfold grouped.
  rewrite get_tabulate, matchingKeys_signatures.
  destruct (decide (sig ∈ signatureOf <$> filter (λ d, comparable d) defs))
    as [Hin|Hin].
  - rewrite decide_True by (by apply elem_of_firstSeen).
    split; [done|apply services_of_members].
  - rewrite decide_False by (by rewrite elem_of_firstSeen).
    unfold inherited.
    destruct (bool_decide_reflect (sig ∈ JsObject.prototypeMembers)); done.
Qed.

Lemma signature_groups_lookup_witness :
  let defs := [enumDef "Color" (Some "A") ["RED"; "BLUE"];
               enumDef "Color" (Some "B") ["BLUE"; "RED"];
               enumDef "Color" (Some "C") ["RED"; "GREEN"]] in
  ∃ groups : MatchingEnumGroups,
    buildMatchingEnumGroups defs = Normal groups ∧
    JsObject.keys groups = ["BLUE,RED"; "GREEN,RED"] ∧
    JsObject.get groups "RED" = JsObject.Undefined ∧
    JsObject.get groups "valueOf" = JsObject.Inherited ∧
    servicesWhere (hasSignature "BLUE,RED") defs = ["A"; "B"].
Proof.
  intros defs. eexists. split; [reflexivity|].
  destruct (signature_groups_lookup defs _ eq_refl) as [Hkeys _].
  split; [exact Hkeys|]. split_and!; reflexivity.
Defined.

(** ** The order of the definitions *)

Lemma forallb_Permutation {A} (f : A → bool) l1 l2 :
  l1 ≡ₚ l2 → forallb f l1 = forallb f l2.
Proof.
  induction 1 as [|x l1 l2 _ IH|x y l|l1 l2 l3 _ IH1 _ IH2]; simpl.
  - done.
  - by rewrite IH.
  - by destruct (f x), (f y).
  - congruence.
Qed.

Lemma existsb_Permutation {A} (f : A → bool) l1 l2 :
  l1 ≡ₚ l2 → existsb f l1 = existsb f l2.
Proof.
  induction 1 as [|x l1 l2 _ IH|x y l|l1 l2 l3 _ IH1 _ IH2]; simpl.
  - done.
  - by rewrite IH.
  - by destruct (f x), (f y).
  - congruence.
Qed.

Lemma signatureCount_Permutation defs1 defs2 :
  defs1 ≡ₚ defs2 → signatureCount defs1 = signatureCount defs2.
Proof.
  intros Hperm. unfold signatureCount.
  apply Permutation_length, NoDup_Permutation; try apply NoDup_remove_dups.
  intros sig. rewrite !elem_of_remove_dups. by rewrite Hperm.
Qed.

Lemma concat_fmap_Permutation {A B} (g : A → list B) l1 l2 :
  l1 ≡ₚ l2 → concat (g <$> l1) ≡ₚ concat (g <$> l2).
Proof.
  induction 1 as [|x l1 l2 _ IH|x y l|l1 l2 l3 _ IH1 _ IH2].
  - done.
  - rewrite !fmap_cons, !concat_cons. by rewrite IH.
  - rewrite !fmap_cons, !concat_cons, !app_assoc.
    by rewrite (Permutation_app_comm (g y) (g x)).
  - by etrans.
Qed.

Lemma groupThrows_Permutation defs1 defs2 :
  defs1 ≡ₚ defs2 → groupThrows defs1 = groupThrows defs2.
Proof.
  intros Hperm. unfold groupThrows.
  by rewrite (forallb_Permutation _ _ _ Hperm),
    (existsb_Permutation _ _ _ Hperm).
Qed.

Lemma runThrows_Permutation defs1 defs2 :
  defs1 ≡ₚ defs2 → runThrows defs1 = runThrows defs2.
Proof.
  intros Hperm. unfold runThrows, grouped.
  rewrite (existsb_Permutation _ _ _ Hperm). f_equal.
  assert (Hfold : ∀ defs : list TypeDefinitionNode,
    existsb (λ entry : string * list TypeDefinitionNode,
               groupThrows entry.2)
      ((λ k, (k, members typeName id k defs)) <$>
         firstSeen (typeName <$> defs)) =
    existsb (λ k, groupThrows (filter (λ d, typeName d = k) defs))
      (firstSeen (typeName <$> defs))).
  { intros defs. generalize (firstSeen (typeName <$> defs)).
    intros ks. induction ks as [|k ks IH]; [done|].
    rewrite fmap_cons. cbn [existsb]. rewrite IH. simpl.
    unfold members. by rewrite list_fmap_id. }
  rewrite !Hfold.
  rewrite (existsb_Permutation _ (firstSeen (typeName <$> defs1))
             (firstSeen (typeName <$> defs2))).
  - generalize (firstSeen (typeName <$> defs2)). intros ks.
    induction ks as [|k ks IH]; [done|]. cbn [existsb].
    rewrite IH. f_equal. apply groupThrows_Permutation. by rewrite Hperm.
  - apply NoDup_Permutation; [apply NoDup_firstSeen..|].
    intros name. rewrite !elem_of_firstSeen. by rewrite Hperm.
Qed.

Lemma codes_MatchingEnums
    (logServiceAndType : option string → string → string) defs :
  runThrows defs = false →
  code <$> errors (after (MatchingEnums logServiceAndType
                            (freshContext defs))) =
  concat
    ((λ name, code <$> groupFaults logServiceAndType
                         (name, filter (λ d, typeName d = name) defs))
     <$> firstSeen (typeName <$> defs)).
Proof.
  intros Hrun. rewrite MatchingEnums_errors. simpl.
  unfold getDocument. simpl. rewrite scannedGroups_all by done.
  rewrite fmap_concat. unfold grouped.
  rewrite <-!list_fmap_compose. f_equal.
  apply list_fmap_ext. intros _ name _. simpl.
  unfold members. by rewrite list_fmap_id.
Qed.

(** X10: the verdict does not depend on the order of the definitions.
    Reordering the definitions of a group leaves the code of its error, or
    the absence of an error, unchanged, and the check ends the same way;
    reordering the document does not change whether the run throws, and
    for a run that returns it leaves the codes of the reported errors
    unchanged up to their order. *)
Theorem verdict_independent_of_order
    (logServiceAndType : option string → string → string)
    (defs1 defs2 : list TypeDefinitionNode) :
  defs1 ≡ₚ defs2 →
  (∀ name context,
     code <$> groupFaults logServiceAndType (name, defs1) =
       code <$> groupFaults logServiceAndType (name, defs2) ∧
     completion (checkGroup logServiceAndType context (name, defs1)) =
       completion (checkGroup logServiceAndType context (name, defs2))) ∧
  completion (MatchingEnums logServiceAndType (freshContext defs1)) =
    completion (MatchingEnums logServiceAndType (freshContext defs2)) ∧
  (completion (MatchingEnums logServiceAndType (freshContext defs1)) =
     Normal () →
   code <$> errors (after (MatchingEnums logServiceAndType
                             (freshContext defs1))) ≡ₚ
   code <$> errors (after (MatchingEnums logServiceAndType
                             (freshContext defs2)))).
Proof.
  intros Hperm.
  assert (Hgroup : ∀ name (g1 g2 : list TypeDefinitionNode), g1 ≡ₚ g2 →
    code <$> groupFaults logServiceAndType (name, g1) =
    code <$> groupFaults logServiceAndType (name, g2)).
  { intros name g1 g2 Hg. rewrite !codes_groupFaults.
    by rewrite (forallb_Permutation _ _ _ Hg),
      (existsb_Permutation isEnumDefinition _ _ Hg),
      (existsb_Permutation signatureInherited _ _ Hg),
      (signatureCount_Permutation _ _ Hg). }
  split_and!.
  - intros name context. split; [by apply Hgroup|].
    rewrite !checkGroup_completion. simpl.
    by rewrite (groupThrows_Permutation _ _ Hperm).
  - rewrite !MatchingEnums_completion. unfold getDocument. simpl.
    by rewrite (runThrows_Permutation _ _ Hperm).
  - rewrite MatchingEnums_completion. unfold getDocument. simpl.
    destruct (runThrows defs1) eqn:Hrun; [done|]. intros _.
    rewrite !codes_MatchingEnums
      by (done || by rewrite <-(runThrows_Permutation _ _ Hperm)).
    etrans.
    { apply (concat_fmap_Permutation _ _ (firstSeen (typeName <$> defs2))).
      apply NoDup_Permutation; [apply NoDup_firstSeen..|].
      intros name. rewrite !elem_of_firstSeen. by rewrite Hperm. }
    match goal with |- ?a ≡ₚ ?b => assert (a = b) as ->; [|done] end.
    f_equal. apply list_fmap_ext. intros _ name _.
    apply Hgroup. by rewrite Hperm.
Qed.

Lemma verdict_independent_of_order_witness :
  let defs1 := [enumDef "Color" (Some "A") ["RED"];
                enumDef "Color" (Some "B") ["BLUE"];
                objectDef "Status" (Some "A");
                enumDef "Status" (Some "B") ["ON"]] in
  let defs2 := [enumDef "Color" (Some "B") ["BLUE"];
                enumDef "Color" (Some "A") ["RED"];
                objectDef "Status" (Some "A");
                enumDef "Status" (Some "B") ["ON"]] in
  code <$> errors (after (MatchingEnums sampleLogServiceAndType
                            (freshContext defs1)))
  ≡ₚ
  code <$> errors (after (MatchingEnums sampleLogServiceAndType
                            (freshContext defs2))).
Proof.
  intros defs1 defs2.
  destruct (verdict_independent_of_order sampleLogServiceAndType
              defs1 defs2) as (_ & _ & Hcodes); [apply perm_swap|].
  apply Hcodes. reflexivity.
Defined.

(** X11: a group of enum definitions in which at most one definition has
    both a service name and values gets no error, whatever the values of
    the others are, and the context stays as it was: definitions that are
    passed over cannot disagree.  The check returns unless the signature
    of that one definition is the name of a member of [Object.prototype]. *)
Theorem lone_comparable_no_error
    (logServiceAndType : option string → string → string)
    (context : SDLValidationContext) (name : string)
    (defs : list TypeDefinitionNode) :
  forallb isEnumDefinition defs = true →
  length (filter (λ d, comparable d) defs) ≤ 1 →
  after (checkGroup logServiceAndType context (name, defs)) = context ∧
  completion (checkGroup logServiceAndType context (name, defs)) =
    if existsb signatureInherited defs then TypeError else Normal ().
Proof.
  intros Hall Hlen. split.
  - apply checkGroup_after_nil, groupFaults_consistent.
    intros [[_ Hn]|[_ Hnot]]; [|congruence].
    pose proof (signatureCount_le defs). lia.
  - rewrite checkGroup_completion. unfold groupThrows. simpl.
    by rewrite Hall.
Qed.

Lemma lone_comparable_no_error_witness :
  let defs := [enumDef "Color" (Some "A") ["RED"];
               enumDef "Color" None ["BLUE"]] in
  checkGroup sampleLogServiceAndType (freshContext defs) ("Color", defs) =
  {| after := freshContext defs; completion := Normal () |}.
Proof.
  intros defs.
  destruct (lone_comparable_no_error sampleLogServiceAndType
              (freshContext defs) "Color" defs) as [Hafter Hcompletion];
    [reflexivity|vm_compute; lia|].
  destruct (checkGroup sampleLogServiceAndType (freshContext defs)
              ("Color", defs)).
  simpl in *. by rewrite Hafter, Hcompletion.
Defined.
